(** * KB_to_CNF: the text-rewriting normaliser and the resolution loop

    A shallow embedding of [KB_to_CNF.py].  The program works on Python
    [str] values with the [re] module, so the embedding has three layers:

    - Python strings as lists of Unicode code points, written in this
      file as UTF-8 literals and decoded by [u];
    - the part of [re] the program uses: a backtracking matcher for the
      pattern syntax of the source, with [re.sub], [re.findall] and
      [re.search] on top of it;
    - the functions of the program, one definition per [def]. *)

From Stdlib Require Import List NArith Arith Bool Lia String Ascii.
Import ListNotations.

Set Implicit Arguments.
Local Open Scope N_scope.

(** ** Python strings *)

(** A character is a Unicode code point, a [str] the list of them. *)
Definition char := N.
Definition str := list char.

Definition str_eq_dec : forall a b : str, {a = b} + {a <> b} :=
  list_eq_dec N.eq_dec.

Definition str_eqb (a b : str) : bool :=
  if str_eq_dec a b then true else false.

(** UTF-8 decoding of the bytes of a literal of this file. *)
Fixpoint utf8_decode (bs : list N) : str :=
  match bs with
  | [] => []
  | b0 :: t0 =>
    if b0 <? 128 then b0 :: utf8_decode t0
    else match t0 with
    | [] => [b0]
    | b1 :: t1 =>
      if b0 <? 224 then ((b0 - 192) * 64 + (b1 - 128)) :: utf8_decode t1
      else match t1 with
      | [] => [b0]
      | b2 :: t2 =>
        if b0 <? 240
        then ((b0 - 224) * 4096 + (b1 - 128) * 64 + (b2 - 128)) :: utf8_decode t2
        else match t2 with
        | [] => [b0]
        | b3 :: t3 =>
          ((b0 - 240) * 262144 + (b1 - 128) * 4096 + (b2 - 128) * 64 + (b3 - 128))
            :: utf8_decode t3
        end
      end
    end
  end.

Definition u (s : string) : str :=
  utf8_decode (map N_of_ascii (list_ascii_of_string s)).

(** The first character of a one-character literal. *)
Definition ch (s : string) : char := hd 0 (u s).

(** ** Exceptions *)

Inductive exn := ReError | IndexError | TypeError.

(** The outcome of a call that may raise. *)
Inductive py (A : Type) :=
| Ret (a : A)
| Raise (e : exn).

Arguments Ret {A} a.
Arguments Raise {A} e.

Definition bind {A B} (m : py A) (f : A -> py B) : py B :=
  match m with
  | Ret a => f a
  | Raise e => Raise e
  end.

Declare Scope py_scope.
Delimit Scope py_scope with py.
Notation "x <- m ;; k" := (bind m (fun x => k))
  (at level 61, m at next level, right associativity) : py_scope.

(** ** Character classes of [re] *)

(** [\s] on [str] patterns: the code points for which [str.isspace]
    holds. *)
Definition is_space (c : char) : bool :=
  ((9 <=? c) && (c <=? 13)) || ((28 <=? c) && (c <=? 32))
  || (c =? 133) || (c =? 160) || (c =? 5760)
  || ((8192 <=? c) && (c <=? 8202))
  || (c =? 8232) || (c =? 8233) || (c =? 8239) || (c =? 8287) || (c =? 12288).

(** [.] without DOTALL: everything but the line feed. *)
Definition is_dot (c : char) : bool := negb (c =? 10).

(** [\w] below U+0100: [str.isalnum] or the underscore. *)
Definition latin1_word (c : char) : bool :=
  ((48 <=? c) && (c <=? 57)) || ((65 <=? c) && (c <=? 90))
  || ((97 <=? c) && (c <=? 122)) || (c =? 95)
  || (c =? 170) || (c =? 178) || (c =? 179) || (c =? 181)
  || (c =? 185) || (c =? 186) || ((188 <=? c) && (c <=? 190))
  || ((192 <=? c) && (c <=? 214)) || ((216 <=? c) && (c <=? 246))
  || ((248 <=? c) && (c <=? 255)).

(** [str.isalnum] from U+0100 on, restricted to the alphabet of the
    examples below: ASCII, the not sign, and the signs of the blocks
    Arrows and Mathematical Operators, none of which is alphanumeric. *)
Definition operators_only (c : char) : bool := false.

(** The characters a standard output in UTF-8 can encode, every code
    point but the surrogates, and those one in ASCII can. *)
Definition utf8_encodable (c : char) : bool :=
  (c <? 55296) || ((57343 <? c) && (c <? 1114112)).

Definition ascii_encodable (c : char) : bool := c <? 128.

(** ** Patterns *)

Inductive cclass :=
| Dot                 (* .  *)
| Ws                  (* \s *)
| Ch (c : char).      (* a literal character *)

Inductive regex :=
| Eps
| Chr (k : cclass)
| Cat (r1 r2 : regex)
| Alt (r1 r2 : regex)            (* r1|r2 *)
| Quest (r : regex)              (* r?   greedy *)
| StarLazy (r : regex)           (* r*?  *)
| Grp (n : nat) (r : regex)      (* the n-th capturing group *)
| WordB                          (* \b *)
| Eos                            (* $  *)
| Fail.                          (* a pattern that does not compile *)

Definition in_class (k : cclass) (c : char) : bool :=
  match k with
  | Dot => is_dot c
  | Ws => is_space c
  | Ch a => c =? a
  end.

(** [re.escape(s)] as a pattern: it matches the text [s] and nothing
    else. *)
Fixpoint re_escape (s : str) : regex :=
  match s with
  | [] => Eps
  | c :: s' => Cat (Chr (Ch c)) (re_escape s')
  end.

(** *** The pattern syntax of the source

    Literals, [\(] [\)] and the other escaped punctuation, [\s], [\b],
    [.], [$], groups with [|], and the quantifiers [?] and [*?].
    [parse_alt] reads an alternation up to a closing parenthesis or the
    end; the number is the index of the next group to open. *)

Definition c_bslash : char := 92.
Definition c_lparen : char := 40.
Definition c_rparen : char := 41.
Definition c_bar : char := 124.
Definition c_quest : char := 63.
Definition c_star : char := 42.
Definition c_dot : char := 46.
Definition c_dollar : char := 36.

Definition is_ascii_alnum (c : char) : bool :=
  ((48 <=? c) && (c <=? 57)) || ((65 <=? c) && (c <=? 90))
  || ((97 <=? c) && (c <=? 122)).

(** A quantifier after an atom. *)
Definition parse_quant (r : regex) (p : str) : regex * str :=
  match p with
  | q :: p1 =>
    if q =? c_quest then (Quest r, p1)
    else if q =? c_star then
      match p1 with
      | q2 :: p2 => if q2 =? c_quest then (StarLazy r, p2) else (Fail, p2)
      | [] => (Fail, [])
      end
    else (r, p)
  | [] => (r, p)
  end.

Fixpoint parse_alt (fuel : nat) (p : str) (n : nat) {struct fuel}
  : option (regex * str * nat) :=
  match fuel with
  | O => None
  | S fuel' =>
    let fix parse_seq (sfuel : nat) (p : str) (n : nat) {struct sfuel}
      : option (regex * str * nat) :=
      match sfuel with
      | O => None
      | S sfuel' =>
        match p with
        | [] => Some (Eps, [], n)
        | c :: p1 =>
          if (c =? c_rparen) || (c =? c_bar) then Some (Eps, p, n)
          else
            let atom :=
              if c =? c_bslash then
                match p1 with
                | e :: p2 =>
                  if e =? 115 then Some (Chr Ws, p2, n)            (* \s *)
                  else if e =? 98 then Some (WordB, p2, n)         (* \b *)
                  else if is_ascii_alnum e then None
                  else Some (Chr (Ch e), p2, n)
                | [] => None
                end
              else if c =? c_lparen then
                match parse_alt fuel' p1 (S n) with
                | Some (r, q :: p2, n') =>
                  if q =? c_rparen then Some (Grp n r, p2, n') else None
                | _ => None
                end
              else if c =? c_dot then Some (Chr Dot, p1, n)
              else if c =? c_dollar then Some (Eos, p1, n)
              else if (c =? c_quest) || (c =? c_star) then None
              else Some (Chr (Ch c), p1, n)
            in
            match atom with
            | Some (r, p2, n') =>
              let (r', p3) := parse_quant r p2 in
              match parse_seq sfuel' p3 n' with
              | Some (rs, p4, n'') => Some (Cat r' rs, p4, n'')
              | None => None
              end
            | None => None
            end
        end
      end in
    match parse_seq fuel' p n with
    | Some (r1, c :: p1, n1) =>
      if c =? c_bar then
        match parse_alt fuel' p1 n1 with
        | Some (r2, p2, n2) => Some (Alt r1 r2, p2, n2)
        | None => None
        end
      else Some (r1, c :: p1, n1)
    | other => other
    end
  end.

(** [re.compile] on the pattern text. *)
Definition re_compile (p : str) : regex :=
  match parse_alt (S (S (List.length p))) p 1 with
  | Some (r, [], _) => r
  | _ => Fail
  end.

Definition rx (s : string) : regex := re_compile (u s).

Arguments u s%_string.
Arguments ch s%_string.
Arguments rx s%_string.

(** ** Replacement templates

    The template syntax of [re.sub]: a backslash and a digit refer to a
    group, two backslashes are one, a backslash at the end of the
    template is an error.  A template without backslash is literal text. *)

Inductive titem :=
| TLit (c : char)
| TGroup (n : nat).

Definition digit_of (c : char) : option nat :=
  if (49 <=? c) && (c <=? 57) then Some (N.to_nat (c - 48)) else None.

Fixpoint parse_template (t : str) : option (list titem) :=
  match t with
  | [] => Some []
  | c :: t1 =>
    if c =? c_bslash then
      match t1 with
      | [] => None
      | e :: t2 =>
        match digit_of e with
        | Some n =>
          match parse_template t2 with
          | Some items => Some (TGroup n :: items)
          | None => None
          end
        | None =>
          if e =? c_bslash then
            match parse_template t2 with
            | Some items => Some (TLit c_bslash :: items)
            | None => None
            end
          else None
        end
      end
    else
      match parse_template t1 with
      | Some items => Some (TLit c :: items)
      | None => None
      end
  end.

(** ** Matching *)

(** The groups that took part in a match, latest first. *)
Definition caps := list (nat * str).

Fixpoint lookup (n : nat) (g : caps) : option str :=
  match g with
  | [] => None
  | (m, t) :: g' => if Nat.eqb n m then Some t else lookup n g'
  end.

(** A match object: the matched text and the groups. *)
Record rmatch := MkMatch { m_text : str; m_caps : caps }.

(** [m.group(n)]; a group that did not take part counts as empty, as
    in templates and in [findall]. *)
Definition group (m : rmatch) (n : nat) : str :=
  match n with
  | O => m_text m
  | _ => match lookup n (m_caps m) with Some t => t | None => [] end
  end.

Fixpoint ngroups (r : regex) : nat :=
  match r with
  | Cat r1 r2 | Alt r1 r2 => (ngroups r1 + ngroups r2)%nat
  | Quest r1 | StarLazy r1 => ngroups r1
  | Grp _ r1 => S (ngroups r1)
  | _ => O
  end.

(** ** String methods *)

Fixpoint prefixb (p s : str) : bool :=
  match p, s with
  | [], _ => true
  | a :: p', c :: s' => (a =? c) && prefixb p' s'
  | _ :: _, [] => false
  end.

(** [sub in s]. *)
Fixpoint contains (s sub : str) : bool :=
  prefixb sub s ||
  match s with
  | [] => false
  | _ :: s' => contains s' sub
  end.

(** [s.replace(old, new)] for a non-empty [old]: the occurrences are
    taken from left to right and do not overlap; [skip] counts the
    characters of the occurrence still to pass. *)
Fixpoint replace_scan (old new : str) (skip : nat) (s : str) : str :=
  match s with
  | [] => []
  | x :: s' =>
    match skip with
    | S k => replace_scan old new k s'
    | O =>
      if prefixb old s
      then new ++ replace_scan old new (pred (List.length old)) s'
      else x :: replace_scan old new O s'
    end
  end.

(** [s.replace(old, new)]; an empty [old] matches before every
    character and at the end. *)
Definition replace (s old new : str) : str :=
  match old with
  | [] => new ++ flat_map (fun c => c :: new) s
  | _ :: _ => replace_scan old new O s
  end.

(** [s.split(sep)] for a non-empty [sep]; [cur] is the field being
    read, reversed. *)
Fixpoint split_scan (sep : str) (skip : nat) (cur s : str) : list str :=
  match s with
  | [] => [rev cur]
  | x :: s' =>
    match skip with
    | S k => split_scan sep k cur s'
    | O =>
      if prefixb sep s
      then rev cur :: split_scan sep (pred (List.length sep)) [] s'
      else split_scan sep O (x :: cur) s'
    end
  end.

Definition split (s sep : str) : list str := split_scan sep O [] s.

(** [sep.join(items)]. *)
Fixpoint join (sep : str) (items : list str) : str :=
  match items with
  | [] => []
  | [x] => x
  | x :: rest => x ++ sep ++ join sep rest
  end.

(** [str(i)] for a non-negative [int]. *)
Fixpoint digits (fuel : nat) (n : N) (acc : str) : str :=
  match fuel with
  | O => acc
  | S fuel' =>
    let acc' := (48 + n mod 10) :: acc in
    if n / 10 =? 0 then acc' else digits fuel' (n / 10) acc'
  end.

Definition str_of_nat (i : nat) : str := digits (S i) (N.of_nat i) [].

(** ** Sets of strings

    A Python [set] of [str], held as a list without repetition.  The
    order of the list stands for the iteration order of the set, which
    Python leaves open. *)
Definition pyset := list str.

Definition mem (x : str) (a : pyset) : bool := existsb (str_eqb x) a.

(** [set(items)]. *)
Definition set_of (items : list str) : pyset := nodup str_eq_dec items.

(** [a | b]. *)
Definition union (a b : pyset) : pyset := nodup str_eq_dec (a ++ b).

(** [a - b]. *)
Definition diff (a b : pyset) : pyset := filter (fun x => negb (mem x b)) a.

(** [a <= b]. *)
Definition subset (a b : pyset) : bool := forallb (fun x => mem x b) a.

(** [a == b]. *)
Definition set_eqb (a b : pyset) : bool := subset a b && subset b a.

Section KB_to_CNF.

(** [str.isalnum] from U+0100 on: the table of the Unicode database,
    which is not part of the program. *)
Variable unicode_isalnum : char -> bool.

(** [\w] on [str] patterns. *)
Definition is_word (c : char) : bool :=
  if c <? 256 then latin1_word c else unicode_isalnum c.

Definition word_at (s : str) : bool :=
  match s with
  | [] => false
  | c :: _ => is_word c
  end.

(** [\b] between the text before the position (held reversed) and the
    text after it. *)
Definition boundary (b s : str) : bool := xorb (word_at b) (word_at s).

(** [$]: the end, or just before a line feed that ends the text. *)
Definition at_end (s : str) : bool :=
  match s with
  | [] => true
  | [c] => c =? 10
  | _ => false
  end.

(** The backtracking matcher, in continuation-passing style: [b] is the
    text before the position, reversed, [s] the text after it, [g] the
    groups so far, and [k] what remains to be matched.  Alternatives are
    tried in the order of [re]: the left branch first, a greedy [?] with
    its operand first, a lazy star with the rest of the pattern first. *)
Fixpoint rmatch_k (A : Type) (r : regex) (b s : str) (g : caps)
    (k : str -> str -> caps -> option A) {struct r} : option A :=
  match r with
  | Eps => k b s g
  | Chr c =>
    match s with
    | x :: s' => if in_class c x then k (x :: b) s' g else None
    | [] => None
    end
  | Cat r1 r2 =>
    rmatch_k r1 b s g (fun b' s' g' => rmatch_k r2 b' s' g' k)
  | Alt r1 r2 =>
    match rmatch_k r1 b s g k with
    | Some a => Some a
    | None => rmatch_k r2 b s g k
    end
  | Quest r1 =>
    match rmatch_k r1 b s g k with
    | Some a => Some a
    | None => k b s g
    end
  | StarLazy r1 =>
    (fix loop (fuel : nat) (b s : str) (g : caps) {struct fuel} : option A :=
       match k b s g with
       | Some a => Some a
       | None =>
         match fuel with
         | O => None
         | S fuel' =>
           rmatch_k r1 b s g (fun b' s' g' =>
             if Nat.ltb (List.length s') (List.length s)
             then loop fuel' b' s' g' else None)
         end
       end) (List.length s) b s g
  | Grp n r1 =>
    rmatch_k r1 b s g (fun b' s' g' =>
      k b' s' ((n, firstn (List.length s - List.length s') s) :: g'))
  | WordB => if boundary b s then k b s g else None
  | Eos => if at_end s then k b s g else None
  | Fail => None
  end.

(** A match that starts at the position [(b, s)]: the number of
    characters it takes and its groups.  With [adv] a match of no
    characters is refused (the must-advance rule after an empty match). *)
Definition match_at (adv : bool) (r : regex) (b s : str)
  : option (nat * caps) :=
  rmatch_k r b s [] (fun _ s' g =>
    let n := (List.length s - List.length s')%nat in
    if adv && Nat.eqb n 0 then None else Some (n, g)).

(** One left-to-right scan of the text, as [re.sub] and [re.findall] do
    it: the successive non-overlapping matches, and between them the
    characters no match covers. *)
Inductive piece :=
| Text (c : char)
| Hit (m : rmatch).

Definition hit (n : nat) (g : caps) (s : str) : piece :=
  Hit (MkMatch (firstn n s) g).

Fixpoint scan (r : regex) (skip : nat) (b s : str) {struct s} : list piece :=
  match skip with
  | S k =>
    (* inside the last match *)
    match s with
    | [] => []
    | x :: s' => scan r k (x :: b) s'
    end
  | O =>
    let next :=
      match s with
      | [] => []
      | x :: s' => Text x :: scan r O (x :: b) s'
      end in
    let inside (n : nat) :=
      match s with
      | [] => []
      | x :: s' => scan r n (x :: b) s'
      end in
    match match_at false r b s with
    | Some (S n, g) => hit (S n) g s :: inside n
    | Some (O, g) =>
      hit O g s ::
      match match_at true r b s with
      | Some (S n, g') => hit (S n) g' s :: inside n
      | _ => next
      end
    | None => next
    end
  end.

Definition hits (ps : list piece) : list rmatch :=
  flat_map (fun p => match p with Hit m => [m] | Text _ => [] end) ps.

(** [re.sub(pattern, repl, string)] with a callable [repl]. *)
Definition re_sub_fun (r : regex) (repl : rmatch -> str) (s : str) : str :=
  flat_map (fun p => match p with Hit m => repl m | Text c => [c] end)
           (scan r O [] s).

Definition expand (t : list titem) (m : rmatch) : str :=
  flat_map (fun i => match i with TLit c => [c] | TGroup n => group m n end) t.

(** [re.sub(pattern, repl, string)] with a template [repl]: the template
    is compiled first, and a template that does not compile raises
    [re.error] whether or not the pattern matches anywhere. *)
Definition re_sub (r : regex) (repl : str) (s : str) : py str :=
  match parse_template repl with
  | Some t => Ret (re_sub_fun r (expand t) s)
  | None => Raise ReError
  end.

(** [re.sub] with one of the literal templates of the source, all of
    which compile. *)
Definition re_sub_t (r : regex) (repl : string) (s : str) : str :=
  match parse_template (u repl) with
  | Some t => re_sub_fun r (expand t) s
  | None => s
  end.

(** [re.findall]: for a pattern with several groups, the tuple of the
    groups of every match. *)
Definition re_findall (r : regex) (s : str) : list (list str) :=
  map (fun m => map (group m) (seq 1 (ngroups r))) (hits (scan r O [] s)).

(** [re.search]: the first match, if any. *)
Definition re_search (r : regex) (s : str) : option rmatch :=
  match hits (scan r O [] s) with
  | [] => None
  | m :: _ => Some m
  end.

(** ** The normalisation stages *)

Definition eliminate_implication (formula : str) : str :=
  (* Eliminate implication: (p ⇒ q) → (¬p ∨ q) *)
  let formula :=
    re_sub_t (rx "\((.?) ⇒ (.?)\)") "(¬\1 ∨ \2)" formula in
  (* Eliminate biconditional: (p ⇔ q) → (¬p ∨ q) ∧ (¬q ∨ p) *)
  let formula :=
    re_sub_t (rx "\((.?) ⇔ (.?)\)") "(¬\1 ∨ \2) ∧ (¬\2 ∨ \1)" formula in
  formula.

Definition move_negation_inward (formula : str) : str :=
  (* ¬(p ∧ q) → (¬p ∨ ¬q) *)
  let formula :=
    re_sub_t (rx "¬\((.?) ∧ (.?)\)") "(¬\1 ∨ ¬\2)" formula in
  (* ¬(p ∨ q) → (¬p ∧ ¬q) *)
  let formula :=
    re_sub_t (rx "¬\((.?) ∨ (.?)\)") "(¬\1 ∧ ¬\2)" formula in
  (* ¬∀ x p → ∃x ¬p *)
  let formula := re_sub_t (rx "¬∀(.?) (.?)") "∃\1 ¬\2" formula in
  (* ¬∃ x p → ∀x ¬p *)
  let formula := re_sub_t (rx "¬∃(.?) (.?)") "∀\1 ¬\2" formula in
  (* ¬¬p → p *)
  let formula := re_sub_t (rx "¬¬(.*?)") "\1" formula in
  formula.

(** [t[i]] on a tuple of groups. *)
Definition item (t : list str) (i : nat) : str := nth i t [].

(** The dictionary [variable_map], in insertion order. *)
Definition vmap := list (str * str).

Definition in_map (k : str) (m : vmap) : bool :=
  existsb (fun kv => str_eqb k (fst kv)) m.

(** The first loop of [standardize_variable_scope]: every captured
    variable is mapped to [f'{var}'], that is to itself. *)
Definition build_variable_map (quantifiers : list (list str)) : vmap :=
  fold_left (fun variable_map t =>
               let var := item t 1 in
               if in_map var variable_map then variable_map
               else variable_map ++ [(var, var)])
            quantifiers [].

Definition standardize_variable_scope (formula : str) : py str :=
  let quantifiers := re_findall (rx "(∀|∃)(.?)\s(.?)\b") formula in
  let variable_map := build_variable_map quantifiers in
  fold_left (fun acc kv =>
               (formula <- acc ;;
                re_sub (Cat (rx "\b") (Cat (re_escape (fst kv)) (rx "\b")))
                       (snd kv) formula)%py)
            variable_map (Ret formula).

Definition move_quantifiers_left (formula : str) : str :=
  let quantifiers := re_findall (rx "(∀|∃)(.*?)\s") formula in
  let new_formula :=
    fold_left (fun new_formula t =>
                 let quantifier := item t 0 in
                 let var := item t 1 in
                 replace new_formula (quantifier ++ var ++ u " ") [])
              quantifiers formula in
  join (u " ") (map (fun t => item t 0 ++ item t 1) quantifiers)
    ++ u " " ++ new_formula.

(** The inner loop of [convert_to_cnf] over
    [enumerate(disjunctions)]. *)
Fixpoint rename_disjuncts (quantifier var : str) (i : nat)
    (disjunctions : list str) (formula : str) : str :=
  match disjunctions with
  | [] => formula
  | disj :: rest =>
    let formula :=
      if str_eqb quantifier (u "∃") then
        let new_var := var ++ u "_" ++ str_of_nat i in
        replace formula (quantifier ++ var ++ u " " ++ disj)
                (u "∃" ++ new_var ++ u " " ++ replace disj var new_var)
      else if str_eqb quantifier (u "∀") then
        let new_var := var ++ u "_" ++ str_of_nat i in
        replace formula (quantifier ++ var ++ u " " ++ disj)
                (u "∀" ++ new_var ++ u " " ++ replace disj var new_var)
      else formula in
    rename_disjuncts quantifier var (S i) rest formula
  end.

Definition convert_to_cnf (formula : str) : str :=
  (* p ∨ (q ∧ r) → (p ∨ q) ∧ (p ∨ r) *)
  let formula :=
    re_sub_t (rx "(.?) ∨ \((.?) ∧ (.*?)\)") "(\1 ∨ \2) ∧ (\1 ∨ \3)" formula in
  (* Handle quantified expressions *)
  let quantified_vars := re_findall (rx "(∀|∃)(.*?)\s") formula in
  fold_left (fun formula t =>
               let quantifier := item t 0 in
               let var := item t 1 in
               match re_search (Cat (re_escape (quantifier ++ u " " ++ var))
                                    (rx "\s(.*?)$")) formula with
               | Some subformula_match =>
                 let subformula := group subformula_match 1 in
                 if contains subformula (u "∨") then
                   rename_disjuncts quantifier var O
                                    (split subformula (u " ∨ ")) formula
                 else formula
               | None => formula
               end)
            quantified_vars formula.

(** The loop of [skolemization]: the state is the list of constants
    left and the formula; [pop(0)] on the empty list raises
    [IndexError]. *)
Definition skolem_step (st : py (list str * str)) (t : list str)
  : py (list str * str) :=
  (st <- st ;;
   let skolem_constants := fst st in
   let skolemized_formula := snd st in
   let var := item t 1 in
   match re_search (re_escape var) skolemized_formula with
   | None =>
     match skolem_constants with
     | c :: skolem_constants' =>
       Ret (skolem_constants', replace skolemized_formula (u "∃" ++ var) c)
     | [] => Raise IndexError
     end
   | Some _ =>
     Ret (skolem_constants,
          re_sub_fun (Cat (rx "∃(.*?)\s") (re_escape var)) (fun m => [])
                     skolemized_formula)
   end)%py.

Definition skolemization (formula : str) : py str :=
  let skolem_constants := [u "A"; u "B"; u "C"; u "D"; u "E"] in
  let existentials := re_findall (rx "∃(.?)\s(.?)\b") formula in
  (st <- fold_left skolem_step existentials (Ret (skolem_constants, formula)) ;;
   Ret (snd st))%py.

Definition eliminate_universal_quantifiers (formula : str) : str :=
  re_sub_t (rx "∀(.?)\s(.?)") "\2" formula.

(** ** Clauses and resolution *)

Definition clause := pyset.

Definition clauses_from_formula (formula : str) : list clause :=
  let conjunctions := split formula (u "∧") in
  map (fun conj => set_of (split conj (u "∨"))) conjunctions.

Definition complementary (literal_i literal_j : str) : bool :=
  str_eqb literal_i (u "¬" ++ literal_j) || str_eqb (u "¬" ++ literal_i) literal_j.

Definition resolve (clause_i clause_j : clause) : list clause :=
  flat_map (fun literal_i =>
    flat_map (fun literal_j =>
      if complementary literal_i literal_j
      then [diff (union clause_i clause_j) [literal_i; literal_j]]
      else [])
    clause_j)
  clause_i.

(** [combinations(range(n), 2)], read through [clauses[i]] and
    [clauses[j]]. *)
Fixpoint combinations2 (A : Type) (l : list A) : list (A * A) :=
  match l with
  | [] => []
  | x :: t => map (pair x) t ++ combinations2 t
  end.

(** [new_clauses.update(resolvents)]: the resolvents are [set] objects,
    which cannot be hashed, so adding the first one raises [TypeError]. *)
Definition set_update (new_clauses : list clause) (resolvents : list clause)
  : py (list clause) :=
  match resolvents with
  | [] => Ret new_clauses
  | _ :: _ => Raise TypeError
  end.

(** The [for] loop over the pairs; [None] stands for the [return True]
    inside it. *)
Fixpoint sweep (pairs : list (clause * clause)) (new_clauses : list clause)
  : py (option (list clause)) :=
  match pairs with
  | [] => Ret (Some new_clauses)
  | (clause_i, clause_j) :: rest =>
    let resolvents := resolve clause_i clause_j in
    if existsb (set_eqb []) resolvents then Ret None
    else (new_clauses <- set_update new_clauses resolvents ;;
          sweep rest new_clauses)%py
  end.

(** The [while True] loop.  [rounds] bounds the number of iterations of
    the model; [None] means that the bound was reached, not a result of
    the program. *)
Fixpoint resolution_loop (rounds : nat) (clauses : list clause)
  : option (py bool) :=
  match rounds with
  | O => None
  | S rounds' =>
    match sweep (combinations2 clauses) [] with
    | Raise e => Some (Raise e)
    | Ret None => Some (Ret true)
    | Ret (Some new_clauses) =>
      if forallb (fun clause =>
                    forallb (fun new_clause => subset new_clause clause)
                            new_clauses) clauses
      then Some (Ret false)
      else
        let clauses := clauses ++ new_clauses in
        resolution_loop rounds'
          (filter (fun clause => negb (existsb (set_eqb clause) new_clauses))
                  clauses)
    end
  end.

(** The stages in the order of the loop body of [resolution]. *)
Definition resolution_cnf (prop : str) : py str :=
  (let prop := eliminate_implication prop in
   let prop := move_negation_inward prop in
   prop <- standardize_variable_scope prop ;;
   prop <- skolemization prop ;;
   let prop := move_quantifiers_left prop in
   let prop := eliminate_universal_quantifiers prop in
   Ret (convert_to_cnf prop))%py.

(** The first loop of [resolution]: the clause list. *)
Fixpoint clause_store (propositions : list str) (clauses : list clause)
  : py (list clause) :=
  match propositions with
  | [] => Ret clauses
  | prop :: rest =>
    (prop <- resolution_cnf prop ;;
     clause_store rest (clauses ++ clauses_from_formula prop))%py
  end.

Definition resolution (rounds : nat) (propositions : list str)
  : option (py bool) :=
  match clause_store propositions [] with
  | Raise e => Some (Raise e)
  | Ret clauses => resolution_loop rounds clauses
  end.

(** The stages in the order of the loop body of
    [print_propositions_in_cnf]. *)
Definition print_cnf (prop : str) : py str :=
  (let prop := eliminate_implication prop in
   let prop := move_negation_inward prop in
   let prop := move_quantifiers_left prop in
   prop <- standardize_variable_scope prop ;;
   prop <- skolemization prop ;;
   let prop := eliminate_universal_quantifiers prop in
   let prop_cnf := convert_to_cnf prop in
   Ret prop_cnf)%py.

(** ** Standard output

    [print] writes to [sys.stdout], taken to be an open text stream,
    and the state that is passed along is the text written to it so
    far.  The stream encodes a text as a whole before it takes any of
    it, and raises [UnicodeEncodeError] where a character has no
    encoding; which characters have one depends on the encoding and
    the error handler of the stream, a parameter here. *)

(** How a call that writes to [sys.stdout] ends. *)
Inductive ending :=
| Returns
| Raises (e : exn)
| RaisesUnicodeEncodeError.

Definition and_then (m : str * ending) (k : str -> str * ending)
  : str * ending :=
  match m with
  | (out, Returns) => k out
  | _ => m
  end.

Section Stdout.

Variable stdout_encodable : char -> bool.

(** [sys.stdout.write(text)] *)
Definition write (text out : str) : str * ending :=
  if forallb stdout_encodable text then (out ++ text, Returns)
  else (out, RaisesUnicodeEncodeError).

(** [print(text)]: the text, then the line feed of [end]. *)
Definition print (text out : str) : str * ending :=
  and_then (write text out) (write [10]).

(** The loop of [print_propositions_in_cnf]. *)
Fixpoint print_loop (propositions : list str) (out : str) : str * ending :=
  match propositions with
  | [] => (out, Returns)
  | prop :: rest =>
    match print_cnf prop with
    | Raise e => (out, Raises e)
    | Ret prop_cnf => and_then (print prop_cnf out) (print_loop rest)
    end
  end.

Definition print_propositions_in_cnf (propositions : list str) (out : str)
  : str * ending :=
  and_then (print (u "Propositions in CNF:") out) (print_loop propositions).

End Stdout.

(** ** Truth of clauses

    The reading of a clause list that resolution refutation is about:
    a literal is an atom under any number of negation signs, a clause
    the disjunction of its literals, the list their conjunction. *)

Definition valuation := str -> bool.

Fixpoint literal_holds (v : valuation) (literal : str) : bool :=
  match literal with
  | c :: atom => if c =? ch "¬" then negb (literal_holds v atom) else v literal
  | [] => v []
  end.

Definition clause_holds (v : valuation) (c : clause) : bool :=
  existsb (literal_holds v) c.

Definition satisfiable (clauses : list clause) : Prop :=
  exists v, forallb (clause_holds v) clauses = true.

(** The resolvents of one sweep over all pairs. *)
Definition all_resolvents (clauses : list clause) : list clause :=
  flat_map (fun ij => resolve (fst ij) (snd ij)) (combinations2 clauses).

(** The resolvent of the rule: what is left of either clause once its
    own resolved literal is taken out. *)
Definition binary_resolvent (clause_i clause_j : clause)
    (literal_i literal_j : str) : clause :=
  union (diff clause_i [literal_i]) (diff clause_j [literal_j]).

(** * Properties *)

(** ** The matcher *)

(** Every captured text satisfies [P]. *)
Definition caps_ok (P : char -> bool) (g : caps) : Prop :=
  Forall (fun e => forallb P (snd e) = true) g.

Definition is_suffix (s' s : str) : Prop := exists pre, s = pre ++ s'.

Lemma is_suffix_refl s : is_suffix s s.
Proof. now exists []. Qed.

Lemma is_suffix_cons s' x s : is_suffix s' s -> is_suffix s' (x :: s).
Proof. intros [pre ->]. now exists (x :: pre). Qed.

Lemma is_suffix_forallb P s' s :
  is_suffix s' s -> forallb P s = true -> forallb P s' = true.
Proof.
  intros [pre ->]. rewrite forallb_app.
  intros H. now apply andb_true_iff in H.
Qed.

(** The longest text a pattern can match, where there is a bound. *)
Fixpoint width (r : regex) : option nat :=
  match r with
  | Chr _ => Some 1%nat
  | Cat r1 r2 =>
    match width r1, width r2 with
    | Some m1, Some m2 => Some (m1 + m2)%nat
    | _, _ => None
    end
  | Alt r1 r2 =>
    match width r1, width r2 with
    | Some m1, Some m2 => Some (Nat.max m1 m2)
    | _, _ => None
    end
  | Quest r1 | Grp _ r1 => width r1
  | StarLazy _ => None
  | Eps | WordB | Eos | Fail => Some O
  end.

(** The groups of a pattern, each with the bound of its body. *)
Fixpoint gwidths (r : regex) : list (nat * option nat) :=
  match r with
  | Cat r1 r2 | Alt r1 r2 => gwidths r1 ++ gwidths r2
  | Quest r1 | StarLazy r1 => gwidths r1
  | Grp n r1 => (n, width r1) :: gwidths r1
  | _ => []
  end.

Definition fits (ow : option nat) (t : str) : Prop :=
  match ow with
  | Some m => (List.length t <= m)%nat
  | None => True
  end.

Definition caps_within (ws : list (nat * option nat)) (g : caps) : Prop :=
  Forall (fun e => exists ow, In (fst e, ow) ws /\ fits ow (snd e)) g.

Lemma caps_within_incl ws ws' g :
  incl ws ws' -> caps_within ws g -> caps_within ws' g.
Proof.
  intros Hi. apply Forall_impl. intros e (ow & Hin & Hf).
  exists ow. auto.
Qed.

Lemma forallb_app_l (P : char -> bool) a b :
  forallb P (a ++ b) = true -> forallb P a = true.
Proof. rewrite forallb_app. intros H. now apply andb_true_iff in H. Qed.

Lemma forallb_app_r (P : char -> bool) a b :
  forallb P (a ++ b) = true -> forallb P b = true.
Proof. rewrite forallb_app. intros H. now apply andb_true_iff in H. Qed.

(** The continuation is entered after a prefix [w] of the text has been
    read; [w] is within the width of the pattern, and the groups
    recorded on the way are pieces of [w] within the widths of their
    bodies. *)
Lemma rmatch_k_inv r :
  forall A (k : str -> str -> caps -> option A) b s g a,
    rmatch_k r b s g k = Some a ->
    exists w s' new,
      s = w ++ s' /\ k (rev w ++ b) s' (new ++ g) = Some a /\
      fits (width r) w /\ caps_within (gwidths r) new /\
      (forall P, forallb P w = true -> caps_ok P new).
Proof.
  induction r as [ | c | r1 IH1 r2 IH2 | r1 IH1 r2 IH2 | r1 IH1 | r1 IH1
                 | n r1 IH1 | | | ]; intros A k b s g a H; simpl in H.
  - exists [], s, []. repeat split; simpl; auto; constructor.
  - destruct s as [ | x s']; [discriminate | ].
    destruct (in_class c x); [ | discriminate].
    exists [x], s', []. repeat split; simpl; auto; constructor.
  - apply IH1 in H. destruct H as (w1 & s1 & n1 & -> & H & Hw1 & Hg1 & Hc1).
    apply IH2 in H. destruct H as (w2 & s2 & n2 & -> & H & Hw2 & Hg2 & Hc2).
    exists (w1 ++ w2), s2, (n2 ++ n1). split; [now rewrite app_assoc | ].
    split; [now rewrite rev_app_distr, <- !app_assoc | ].
    split; [ | split].
    + simpl. destruct (width r1), (width r2); simpl in *; auto.
      rewrite length_app. lia.
    + apply Forall_app. split.
      * eapply caps_within_incl; [ | exact Hg2]. apply incl_appr, incl_refl.
      * eapply caps_within_incl; [ | exact Hg1]. apply incl_appl, incl_refl.
    + intros P HP. apply Forall_app. split.
      * apply Hc2. eapply forallb_app_r; eauto.
      * apply Hc1. eapply forallb_app_l; eauto.
  - destruct (rmatch_k r1 b s g k) as [a1 | ] eqn:E1.
    + injection H as <-. apply IH1 in E1.
      destruct E1 as (w & s' & new & -> & H & Hw & Hg & Hc).
      exists w, s', new. repeat split; auto.
      * simpl. destruct (width r1), (width r2); simpl in *; auto. lia.
      * eapply caps_within_incl; [ | exact Hg]. apply incl_appl, incl_refl.
    + apply IH2 in H.
      destruct H as (w & s' & new & -> & H & Hw & Hg & Hc).
      exists w, s', new. repeat split; auto.
      * simpl. destruct (width r1), (width r2); simpl in *; auto. lia.
      * eapply caps_within_incl; [ | exact Hg]. apply incl_appr, incl_refl.
  - destruct (rmatch_k r1 b s g k) as [a1 | ] eqn:E1.
    + injection H as <-. now apply IH1 in E1.
    + exists [], s, []. repeat split; simpl; auto; try constructor.
      destruct (width r1); simpl; auto. lia.
  - revert H. generalize (List.length s) as fuel.
    intros fuel. revert b s g. induction fuel as [ | fuel IHf]; intros b s g H.
    + destruct (k b s g) eqn:E; [ | discriminate].
      injection H as <-. exists [], s, [].
      repeat split; simpl; auto; constructor.
    + destruct (k b s g) eqn:E.
      * injection H as <-. exists [], s, [].
        repeat split; simpl; auto; constructor.
      * apply IH1 in H.
        destruct H as (w1 & s1 & n1 & -> & H & Hw1 & Hg1 & Hc1).
        destruct (Nat.ltb (List.length s1) (List.length (w1 ++ s1)));
          [ | discriminate].
        apply IHf in H.
        destruct H as (w2 & s2 & n2 & -> & H & Hw2 & Hg2 & Hc2).
        exists (w1 ++ w2), s2, (n2 ++ n1). split; [now rewrite app_assoc | ].
        split; [now rewrite rev_app_distr, <- !app_assoc | ].
        split; [exact I | split].
        -- apply Forall_app. split; [exact Hg2 | exact Hg1].
        -- intros P HP. apply Forall_app. split.
           ++ apply Hc2. eapply forallb_app_r; eauto.
           ++ apply Hc1. eapply forallb_app_l; eauto.
  - apply IH1 in H. destruct H as (w & s' & new & -> & H & Hw & Hg & Hc).
    rewrite length_app, Nat.add_sub, firstn_app, Nat.sub_diag in H.
    rewrite firstn_all, firstn_O, app_nil_r in H.
    exists w, s', ((n, w) :: new). repeat split; auto.
    + constructor.
      * exists (width r1). simpl. auto.
      * eapply caps_within_incl; [ | exact Hg]. apply incl_tl, incl_refl.
    + intros P HP. constructor; [exact HP | now apply Hc].
  - destruct (boundary b s); [ | discriminate]. exists [], s, [].
    repeat split; simpl; auto; constructor.
  - destruct (at_end s); [ | discriminate]. exists [], s, [].
    repeat split; simpl; auto; constructor.
  - discriminate.
Qed.

(** A match at a position covers a prefix of the text that follows. *)
Lemma match_at_inv adv r b s n g :
  match_at adv r b s = Some (n, g) ->
  exists w s',
    s = w ++ s' /\ n = List.length w /\ firstn n s = w /\
    fits (width r) w /\ caps_within (gwidths r) g /\
    (forall P, forallb P s = true -> caps_ok P g).
Proof.
  unfold match_at. intros H. apply rmatch_k_inv in H.
  destruct H as (w & s' & new & -> & H & Hw & Hg & Hc).
  rewrite length_app, Nat.add_sub, app_nil_r in H.
  destruct (adv && Nat.eqb (List.length w) 0); [discriminate | ].
  injection H as <- <-. exists w, s'. repeat split; auto.
  - now rewrite firstn_app, Nat.sub_diag, firstn_all, firstn_O, app_nil_r.
  - intros P HP. apply Hc. eapply forallb_app_l; eauto.
Qed.

(** ** The scan *)

Definition piece_text (p : piece) : str :=
  match p with
  | Text c => [c]
  | Hit m => m_text m
  end.

(** The pieces of a scan spell the text. *)
Lemma scan_text r s : forall skip b,
  flat_map piece_text (scan r skip b s) = skipn skip s.
Proof.
  induction s as [ | x s IH]; intros skip b.
  - destruct skip as [ | k]; [ | reflexivity]. simpl.
    destruct (match_at false r b []) as [[[ | n] g] | ] eqn:E;
      try reflexivity.
    + simpl. destruct (match_at true r b []) as [[[ | n'] g'] | ];
        reflexivity.
  - destruct skip as [ | k]; [ | simpl; apply IH].
    simpl scan.
    destruct (match_at false r b (x :: s)) as [[[ | n] g] | ] eqn:E.
    + destruct (match_at true r b (x :: s)) as [[[ | n'] g'] | ] eqn:E'.
      * simpl. now rewrite IH.
      * cbn [flat_map piece_text hit m_text firstn app].
        rewrite IH. simpl. now rewrite firstn_skipn.
      * simpl. now rewrite IH.
    + cbn [flat_map piece_text hit m_text firstn app].
      rewrite IH. simpl. now rewrite firstn_skipn.
    + simpl. now rewrite IH.
Qed.

(** What holds of every match at every position of the text holds of
    the matches a scan finds. *)
Lemma scan_hits (Q : rmatch -> Prop) r s : forall skip b,
  (forall adv b' s' n g,
      is_suffix s' s -> match_at adv r b' s' = Some (n, g) ->
      Q (MkMatch (firstn n s') g)) ->
  Forall Q (hits (scan r skip b s)).
Proof.
  induction s as [ | x s IH]; intros skip b HQ.
  - destruct skip as [ | k]; [ | constructor]. simpl.
    destruct (match_at false r b []) as [[[ | n] g] | ] eqn:E.
    + simpl. constructor; [eapply (HQ false b [] 0%nat); eauto using is_suffix_refl | ].
      destruct (match_at true r b []) as [[[ | n'] g'] | ] eqn:E';
        simpl; repeat constructor.
      eapply (HQ true b [] (S n')); eauto using is_suffix_refl.
    + simpl. repeat constructor.
      eapply (HQ false b [] (S n)); eauto using is_suffix_refl.
    + constructor.
  - assert (HQ' : forall adv b' s' n g,
               is_suffix s' s -> match_at adv r b' s' = Some (n, g) ->
               Q (MkMatch (firstn n s') g))
      by (intros; eapply HQ; eauto using is_suffix_cons).
    destruct skip as [ | k]; [ | simpl; now apply IH].
    simpl scan.
    destruct (match_at false r b (x :: s)) as [[[ | n] g] | ] eqn:E.
    + simpl hits. constructor;
        [eapply (HQ false b (x :: s) 0%nat); eauto using is_suffix_refl | ].
      destruct (match_at true r b (x :: s)) as [[[ | n'] g'] | ] eqn:E'.
      * simpl. now apply IH.
      * simpl. constructor; [ | now apply IH].
        eapply (HQ true b (x :: s) (S n')); eauto using is_suffix_refl.
      * simpl. now apply IH.
    + simpl. constructor; [ | now apply IH].
      eapply (HQ false b (x :: s) (S n)); eauto using is_suffix_refl.
    + simpl. now apply IH.
Qed.

(** Where the pattern matches at no position the scan returns the text
    character by character. *)
Lemma scan_no_match r s : forall b,
  (forall adv b' s', is_suffix s' s -> match_at adv r b' s' = None) ->
  scan r O b s = map Text s.
Proof.
  induction s as [ | x s IH]; intros b H.
  - simpl. now rewrite (H false b [] (is_suffix_refl _)).
  - simpl. rewrite (H false b (x :: s) (is_suffix_refl _)).
    f_equal. apply IH. intros adv b' s' Hs. apply H.
    now apply is_suffix_cons.
Qed.

Lemma flat_map_text (f : rmatch -> str) s :
  flat_map (fun p => match p with Hit m => f m | Text c => [c] end)
           (map Text s) = s.
Proof. induction s as [ | x s IH]; simpl; [ | rewrite IH]; reflexivity. Qed.

Lemma hits_text s : hits (map Text s) = [].
Proof. induction s as [ | x s IH]; simpl; auto. Qed.

(** ** Patterns that need a character the text does not have *)

(** [needs P r]: every text [r] matches holds a character of [P]. *)
Fixpoint needs (P : char -> bool) (r : regex) : bool :=
  match r with
  | Chr (Ch c) => P c
  | Cat r1 r2 => needs P r1 || needs P r2
  | Alt r1 r2 => needs P r1 && needs P r2
  | Grp _ r1 => needs P r1
  | Fail => true
  | _ => false
  end.

Definition lacks (P : char -> bool) (s : str) : bool :=
  forallb (fun c => negb (P c)) s.

Lemma lacks_app P a b : lacks P (a ++ b) = lacks P a && lacks P b.
Proof. apply forallb_app. Qed.

Lemma needs_rmatch_k P r :
  needs P r = true ->
  forall A (k : str -> str -> caps -> option A) b s g,
    lacks P s = true -> rmatch_k r b s g k = None.
Proof.
  induction r as [ | c | r1 IH1 r2 IH2 | r1 IH1 r2 IH2 | r1 IH1 | r1 IH1
                 | n r1 IH1 | | | ]; simpl; intros Hn A k b s g Hs;
    try discriminate; try reflexivity.
  - destruct c as [ | | c]; try discriminate.
    destruct s as [ | x s']; [reflexivity | ]. simpl in *.
    destruct (N.eqb_spec x c) as [-> | ]; [ | reflexivity].
    rewrite Hn in Hs. discriminate.
  - apply orb_true_iff in Hn. destruct Hn as [Hn | Hn].
    + now apply IH1.
    + destruct (rmatch_k r1 b s g _) as [a | ] eqn:E; [ | reflexivity].
      apply rmatch_k_inv in E. destruct E as (w & s' & g' & -> & E & _).
      rewrite lacks_app in Hs. apply andb_true_iff in Hs.
      rewrite IH2 in E by tauto. discriminate.
  - apply andb_true_iff in Hn. rewrite IH1, IH2 by tauto. reflexivity.
  - now apply IH1.
Qed.

Lemma needs_match_at P r adv b s :
  needs P r = true -> lacks P s = true -> match_at adv r b s = None.
Proof. intros. unfold match_at. eapply needs_rmatch_k; eauto. Qed.

Lemma needs_scan P r s b :
  needs P r = true -> lacks P s = true -> scan r O b s = map Text s.
Proof.
  intros Hn Hs. apply scan_no_match. intros adv b' s' Hsuf.
  eapply needs_match_at; eauto. eapply is_suffix_forallb; eauto.
Qed.

(** Such a pattern is found nowhere by [re.findall] and [re.search] and
    [re.sub] returns the text as it is. *)
Lemma needs_re_sub_fun P r repl s :
  needs P r = true -> lacks P s = true -> re_sub_fun r repl s = s.
Proof.
  intros. unfold re_sub_fun. erewrite needs_scan by eauto.
  apply flat_map_text.
Qed.

Lemma needs_re_sub_t P r repl s :
  needs P r = true -> lacks P s = true -> re_sub_t r repl s = s.
Proof.
  intros. unfold re_sub_t. destruct (parse_template (u repl)); [ | reflexivity].
  eapply needs_re_sub_fun; eauto.
Qed.

Lemma needs_re_findall P r s :
  needs P r = true -> lacks P s = true -> re_findall r s = [].
Proof.
  intros. unfold re_findall. erewrite needs_scan by eauto.
  now rewrite hits_text.
Qed.

Lemma needs_re_search P r s :
  needs P r = true -> lacks P s = true -> re_search r s = None.
Proof.
  intros. unfold re_search. erewrite needs_scan by eauto.
  now rewrite hits_text.
Qed.

(** ** What [re.sub] keeps *)

Lemma forallb_flat_map (A : Type) (P : char -> bool) (f : A -> str) l :
  (forall x, In x l -> forallb P (f x) = true) ->
  forallb P (flat_map f l) = true.
Proof.
  induction l as [ | x l IH]; intros H; simpl; [reflexivity | ].
  rewrite forallb_app, H, IH; simpl; auto.
  intros; apply H; simpl; auto.
Qed.

Lemma forallb_flat_map_inv (A : Type) (P : char -> bool) (f : A -> str) l x :
  forallb P (flat_map f l) = true -> In x l -> forallb P (f x) = true.
Proof.
  induction l as [ | y l IH]; simpl; [tauto | ].
  rewrite forallb_app. intros H [-> | Hin];
    apply andb_true_iff in H; [tauto | apply IH; tauto].
Qed.

Lemma In_hits m ps : In (Hit m) ps -> In m (hits ps).
Proof.
  unfold hits. intros H. apply in_flat_map. exists (Hit m). simpl. auto.
Qed.

(** If the text is made of characters of [P] and the replacement of a
    match made of such characters is too, so is the result. *)
Lemma re_sub_fun_forallb P r repl s :
  forallb P s = true ->
  (forall m, forallb P (m_text m) = true -> caps_ok P (m_caps m) ->
             forallb P (repl m) = true) ->
  forallb P (re_sub_fun r repl s) = true.
Proof.
  intros Hs Hrepl. unfold re_sub_fun. apply forallb_flat_map.
  intros [c | m] Hin.
  - apply (forallb_flat_map_inv P piece_text (scan r O [] s) (Text c)); auto.
    now rewrite scan_text.
  - apply In_hits in Hin. revert m Hin. apply Forall_forall.
    apply scan_hits with (Q := fun m => forallb P (repl m) = true).
    intros adv b' s' n g Hsuf Hm. apply match_at_inv in Hm.
    destruct Hm as (w & s'' & -> & -> & Hw & _ & _ & Hc).
    pose proof (is_suffix_forallb P Hsuf Hs) as Hs'.
    apply Hrepl; simpl.
    + rewrite Hw. rewrite forallb_app in Hs'. now apply andb_true_iff in Hs'.
    + now apply Hc.
Qed.

Lemma lookup_ok P n g t :
  caps_ok P g -> lookup n g = Some t -> forallb P t = true.
Proof.
  induction 1 as [ | [m t'] g Ht Hg IH]; simpl; [discriminate | ].
  destruct (Nat.eqb n m); [now intros [= <-] | exact IH].
Qed.

Definition titem_ok (P : char -> bool) (i : titem) : bool :=
  match i with
  | TLit c => P c
  | TGroup _ => true
  end.

Lemma expand_forallb P t m :
  forallb (titem_ok P) t = true ->
  forallb P (m_text m) = true -> caps_ok P (m_caps m) ->
  forallb P (expand t m) = true.
Proof.
  intros Ht Hm Hc. unfold expand. apply forallb_flat_map.
  intros [c | n] Hin.
  - rewrite forallb_forall in Ht. apply Ht in Hin. simpl in *.
    now rewrite Hin.
  - destruct n as [ | n]; [exact Hm | ]. unfold group.
    destruct (lookup (S n) (m_caps m)) as [t' | ] eqn:E; [ | reflexivity].
    eapply lookup_ok; eauto.
Qed.

(** [re.sub] with a template whose own characters are of [P]. *)
Lemma re_sub_t_forallb P r repl s :
  match parse_template (u repl) with
  | Some t => forallb (titem_ok P) t
  | None => true
  end = true ->
  forallb P s = true -> forallb P (re_sub_t r repl s) = true.
Proof.
  unfold re_sub_t. destruct (parse_template (u repl)) as [t | ]; [ | auto].
  intros Ht Hs. apply re_sub_fun_forallb; [exact Hs | ].
  intros m. now apply expand_forallb.
Qed.

(** ** Replacing a match by its own text *)

Lemma flat_map_ext_in (A B : Type) (f f' : A -> list B) l :
  (forall x, In x l -> f x = f' x) -> flat_map f l = flat_map f' l.
Proof.
  induction l as [ | x l IH]; intros H; simpl; [reflexivity | ].
  rewrite H, IH; simpl; auto. intros; apply H; simpl; auto.
Qed.

Lemma re_sub_fun_same r repl s :
  (forall adv b' s' n g,
      match_at adv r b' s' = Some (n, g) ->
      repl (MkMatch (firstn n s') g) = firstn n s') ->
  re_sub_fun r repl s = s.
Proof.
  intros H. unfold re_sub_fun.
  rewrite <- (scan_text r s O []) at 2.
  apply flat_map_ext_in. intros [c | m] Hin; [reflexivity | ].
  apply In_hits in Hin. revert m Hin. apply Forall_forall.
  apply scan_hits with (Q := fun m => repl m = piece_text (Hit m)).
  intros adv b' s' n g _ Hm. simpl. eauto.
Qed.

Lemma re_escape_inv v :
  forall A (k : str -> str -> caps -> option A) b s g a,
    rmatch_k (re_escape v) b s g k = Some a ->
    exists s', s = v ++ s' /\ k (rev v ++ b) s' g = Some a.
Proof.
  induction v as [ | c v IH]; intros A k b s g a H; simpl in H.
  - exists s. auto.
  - destruct s as [ | x s]; [discriminate | ].
    destruct (N.eqb_spec x c) as [-> | ]; [ | discriminate].
    apply IH in H. destruct H as (s' & -> & H).
    exists s'. split; [reflexivity | ].
    simpl. now rewrite <- app_assoc.
Qed.

(** The pattern [r'\b' + re.escape(var) + r'\b'] matches the text [var]
    only. *)
Definition word_pattern (var : str) : regex :=
  Cat (rx "\b") (Cat (re_escape var) (rx "\b")).

Lemma word_pattern_text adv var b s n g :
  match_at adv (word_pattern var) b s = Some (n, g) -> firstn n s = var.
Proof.
  unfold word_pattern. change (rx "\b") with (Cat WordB Eps).
  unfold match_at. simpl.
  destruct (boundary b s); [ | discriminate].
  intros H. apply re_escape_inv in H. destruct H as (s' & -> & H).
  destruct (boundary _ s'); [ | discriminate].
  rewrite length_app, Nat.add_sub in H.
  destruct (adv && _); [discriminate | ]. injection H as <- _.
  now rewrite firstn_app, Nat.sub_diag, firstn_all, firstn_O, app_nil_r.
Qed.

(** A variable of at most one character, used as a template: a
    backslash does not compile, any other text stands for itself. *)
Lemma re_sub_word var s :
  (List.length var <= 1)%nat ->
  re_sub (word_pattern var) var s =
  if str_eqb var [c_bslash] then Raise ReError else Ret s.
Proof.
  intros Hlen. unfold re_sub.
  destruct var as [ | c [ | c' var]]; simpl in Hlen; [ | | lia].
  - simpl. f_equal. apply re_sub_fun_same.
    intros adv b' s' n g H. apply word_pattern_text in H. now rewrite H.
  - unfold str_eqb. simpl parse_template.
    destruct (N.eqb_spec c c_bslash) as [-> | Hc].
    + destruct (str_eq_dec _ _); [reflexivity | congruence].
    + destruct (str_eq_dec _ _) as [E | _]; [congruence | ].
      f_equal. apply re_sub_fun_same.
      intros adv b' s' n g H. apply word_pattern_text in H. now rewrite H.
Qed.

(** ** [standardize_variable_scope] *)

(** The variable names [standardize_variable_scope] reads off the
    quantifiers of a formula. *)
Definition quantifier_variables (formula : str) : list str :=
  map (fun t => item t 1) (re_findall (rx "(∀|∃)(.?)\s(.?)\b") formula).

Definition is_bslash (var : str) : bool := str_eqb var [c_bslash].

Definition short (var : str) : Prop := (List.length var <= 1)%nat.

Definition on_key (P : str -> bool) (kv : str * str) : bool := P (fst kv).

(** An entry of the dictionary: a short name mapped to itself. *)
Definition own_name (kv : str * str) : Prop :=
  short (fst kv) /\ snd kv = fst kv.

Lemma lookup_In n g t : lookup n g = Some t -> In (n, t) g.
Proof.
  induction g as [ | [m t'] g IH]; simpl; [discriminate | ].
  destruct (Nat.eqb_spec n m) as [-> | ]; [intros [= ->]; auto | auto].
Qed.

(** The second group of the quantifier pattern is [(.?)]: at most one
    character. *)
Lemma quantifier_variables_short formula :
  Forall short (quantifier_variables formula).
Proof.
  unfold quantifier_variables, re_findall. rewrite map_map.
  apply Forall_map. apply scan_hits. intros adv b' s' n g _ H.
  apply match_at_inv in H. destruct H as (w & s'' & _ & _ & _ & _ & Hg & _).
  change (ngroups (rx "(∀|∃)(.?)\s(.?)\b")) with 3%nat.
  unfold item, short. cbn [seq map nth]. unfold group. cbn [m_caps].
  destruct (lookup 2 g) as [t | ] eqn:E; [ | simpl; lia].
  apply lookup_In in E. unfold caps_within in Hg.
  rewrite Forall_forall in Hg. apply Hg in E.
  destruct E as (ow & Hin & Hfit). cbn [fst snd] in *.
  vm_compute in Hin.
  destruct Hin as [[=] | [[= <-] | [[=] | []]]]. exact Hfit.
Qed.

Definition add_variable (variable_map : vmap) (t : list str) : vmap :=
  let var := item t 1 in
  if in_map var variable_map then variable_map
  else variable_map ++ [(var, var)].

Lemma in_map_existsb (P : str -> bool) var (vm : vmap) :
  in_map var vm = true -> P var = true -> existsb (on_key P) vm = true.
Proof.
  unfold in_map. rewrite !existsb_exists. intros ([k v] & Hin & Hk) HP.
  exists (k, v). split; [exact Hin | ]. unfold on_key. simpl in *.
  unfold str_eqb in Hk. destruct (str_eq_dec var k); [now subst | discriminate].
Qed.

(** The dictionary maps names of at most one character to themselves,
    and its keys are the captured names. *)
Lemma build_variable_map_spec (P : str -> bool) (qs : list (list str)) :
  forall vm : vmap,
    Forall short (map (fun t => item t 1) qs) ->
    Forall own_name vm ->
    Forall own_name (fold_left add_variable qs vm) /\
    existsb (on_key P) (fold_left add_variable qs vm) =
    existsb (on_key P) vm || existsb P (map (fun t => item t 1) qs).
Proof.
  induction qs as [ | t qs IH]; intros vm Hqs Hvm; simpl.
  - now rewrite orb_false_r.
  - inversion Hqs as [ | ? ? Ht Hqs']; subst.
    unfold add_variable at 2 4. cbv zeta.
    destruct (in_map (item t 1) vm) eqn:E.
    + destruct (IH vm Hqs' Hvm) as [H1 H2]. split; [exact H1 | ].
      rewrite H2. destruct (P (item t 1)) eqn:EP; [ | reflexivity].
      now rewrite (in_map_existsb P _ _ E EP).
    + destruct (IH (vm ++ [(item t 1, item t 1)]) Hqs') as [H1 H2].
      { apply Forall_app. split; [exact Hvm | ].
        constructor; [split; [exact Ht | reflexivity] | constructor]. }
      split; [exact H1 | ]. rewrite H2, existsb_app. unfold on_key at 2. simpl.
      now rewrite orb_false_r, orb_assoc.
Qed.

Lemma standardize_fold (vm : vmap) : forall acc,
  Forall own_name vm ->
  fold_left (fun acc kv =>
               (formula <- acc ;;
                re_sub (Cat (rx "\b") (Cat (re_escape (fst kv)) (rx "\b")))
                       (snd kv) formula)%py) vm acc =
  match acc with
  | Ret formula =>
    if existsb (on_key is_bslash) vm then Raise ReError else Ret formula
  | Raise e => Raise e
  end.
Proof.
  induction vm as [ | [k v] vm IH]; intros acc Hvm; simpl.
  - now destruct acc.
  - inversion Hvm as [ | ? ? [Hlen Hv] Hvm']; subst. simpl in *. subst v.
    rewrite IH by exact Hvm'. destruct acc as [formula | e]; simpl; auto.
    fold (word_pattern k). rewrite re_sub_word by exact Hlen.
    unfold on_key, is_bslash. simpl. now destruct (str_eqb k [c_bslash]).
Qed.

(** [standardize_variable_scope] returns its argument, unless one of
    the captured names is a backslash, which is no template: then it
    raises [re.error]. *)
Lemma standardize_variable_scope_spec formula :
  standardize_variable_scope formula =
  if existsb is_bslash (quantifier_variables formula)
  then Raise ReError else Ret formula.
Proof.
  unfold standardize_variable_scope, build_variable_map.
  fold add_variable.
  pose proof (quantifier_variables_short formula) as Hs.
  unfold quantifier_variables in *.
  destruct (@build_variable_map_spec is_bslash _ [] Hs (Forall_nil _))
    as [H1 H2].
  rewrite standardize_fold by exact H1. rewrite H2. reflexivity.
Qed.

(** ** Formulas without quantifier signs *)

Definition is_quantifier (c : char) : bool := (c =? ch "∀") || (c =? ch "∃").

Definition quantifier_free (s : str) : bool := lacks is_quantifier s.

Lemma eliminate_implication_quantifier_free s :
  quantifier_free s = true -> quantifier_free (eliminate_implication s) = true.
Proof.
  intros H. unfold eliminate_implication, quantifier_free, lacks.
  repeat (apply re_sub_t_forallb; [reflexivity | ]). exact H.
Qed.

Lemma move_negation_inward_quantifier_free s :
  quantifier_free s = true -> quantifier_free (move_negation_inward s) = true.
Proof.
  intros H. unfold move_negation_inward, quantifier_free, lacks.
  apply re_sub_t_forallb; [reflexivity | ].
  assert (H2 : quantifier_free
                 (re_sub_t (rx "¬\((.?) ∨ (.?)\)") "(¬\1 ∧ ¬\2)"
                    (re_sub_t (rx "¬\((.?) ∧ (.?)\)") "(¬\1 ∨ ¬\2)" s)) = true)
    by (repeat (apply re_sub_t_forallb; [reflexivity | ]); exact H).
  rewrite (needs_re_sub_t is_quantifier (rx "¬∀(.?) (.?)")) by (reflexivity || exact H2).
  rewrite (needs_re_sub_t is_quantifier (rx "¬∃(.?) (.?)")) by (reflexivity || exact H2).
  exact H2.
Qed.

Lemma standardize_quantifier_free s :
  quantifier_free s = true -> standardize_variable_scope s = Ret s.
Proof.
  intros H. rewrite standardize_variable_scope_spec.
  unfold quantifier_variables.
  now rewrite (needs_re_findall is_quantifier) by (reflexivity || exact H).
Qed.

Lemma skolemization_quantifier_free s :
  quantifier_free s = true -> skolemization s = Ret s.
Proof.
  intros H. unfold skolemization.
  now rewrite (needs_re_findall is_quantifier) by (reflexivity || exact H).
Qed.

Lemma move_quantifiers_left_quantifier_free s :
  quantifier_free s = true -> move_quantifiers_left s = u " " ++ s.
Proof.
  intros H. unfold move_quantifiers_left.
  now rewrite (needs_re_findall is_quantifier) by (reflexivity || exact H).
Qed.

Lemma eliminate_universal_quantifier_free s :
  quantifier_free s = true -> eliminate_universal_quantifiers s = s.
Proof.
  intros H. unfold eliminate_universal_quantifiers.
  now rewrite (needs_re_sub_t is_quantifier) by (reflexivity || exact H).
Qed.

(** On a formula without quantifier signs both orders of the stages
    put one space in front of the negation-normalised text and hand it
    to [convert_to_cnf]. *)
Lemma resolution_cnf_quantifier_free prop :
  quantifier_free prop = true ->
  resolution_cnf prop =
  Ret (convert_to_cnf
         (u " " ++ move_negation_inward (eliminate_implication prop))).
Proof.
  intros H. unfold resolution_cnf.
  apply eliminate_implication_quantifier_free in H.
  apply move_negation_inward_quantifier_free in H.
  rewrite standardize_quantifier_free by exact H. cbv beta iota delta [bind].
  rewrite skolemization_quantifier_free by exact H. cbv beta iota delta [bind].
  rewrite move_quantifiers_left_quantifier_free by exact H.
  now rewrite eliminate_universal_quantifier_free.
Qed.

Lemma print_cnf_quantifier_free prop :
  quantifier_free prop = true ->
  print_cnf prop =
  Ret (convert_to_cnf
         (u " " ++ move_negation_inward (eliminate_implication prop))).
Proof.
  intros H. unfold print_cnf.
  apply eliminate_implication_quantifier_free in H.
  apply move_negation_inward_quantifier_free in H.
  rewrite move_quantifiers_left_quantifier_free by exact H.
  assert (H' : quantifier_free
                 (u " " ++ move_negation_inward (eliminate_implication prop))
               = true) by exact H.
  rewrite standardize_quantifier_free by exact H'. cbv beta iota delta [bind].
  rewrite skolemization_quantifier_free by exact H'. cbv beta iota delta [bind].
  now rewrite eliminate_universal_quantifier_free.
Qed.

(** ** Negations in front of a connective or quantifier *)

(** A negation sign directly before a parenthesis, a quantifier or
    another negation sign: where the patterns of
    [move_negation_inward] can start. *)
Definition redex_head (c d : char) : bool :=
  (c =? ch "¬") &&
  ((d =? ch "(") || (d =? ch "∀") || (d =? ch "∃") || (d =? ch "¬")).

Fixpoint negation_redex (s : str) : bool :=
  match s with
  | c :: s' =>
    match s' with
    | d :: _ => redex_head c d || negation_redex s'
    | [] => false
    end
  | [] => false
  end.

(** The pattern starts with two given characters. *)
Definition starts2 (r : regex) : option (char * char) :=
  match r with
  | Cat (Chr (Ch a)) (Cat (Chr (Ch d)) _) => Some (a, d)
  | _ => None
  end.

Lemma starts2_match_at r a d adv b s :
  starts2 r = Some (a, d) -> match_at adv r b s <> None ->
  exists s', s = a :: d :: s'.
Proof.
  destruct r as [ | | [ | [ | | a'] | | | | | | | | ] r2 | | | | | | | ];
    try discriminate.
  destruct r2 as [ | | [ | [ | | d'] | | | | | | | | ] r3 | | | | | | | ];
    try discriminate.
  simpl. intros [= <- <-] H. unfold match_at in H. simpl in H.
  destruct s as [ | x [ | y s']]; try congruence.
  - destruct (x =? a'); congruence.
  - destruct (N.eqb_spec x a') as [-> | ]; [ | congruence].
    destruct (N.eqb_spec y d') as [-> | ]; [ | congruence].
    now exists s'.
Qed.

Lemma negation_redex_suffix s' s :
  is_suffix s' s -> negation_redex s = false -> negation_redex s' = false.
Proof.
  intros [pre ->]. induction pre as [ | x pre IH]; [auto | ].
  simpl. destruct (pre ++ s') eqn:E; [ | ].
  - destruct pre; [simpl in E; now subst | discriminate].
  - intros H. apply orb_false_iff in H. tauto.
Qed.

Lemma re_sub_t_no_redex r repl a d s :
  starts2 r = Some (a, d) -> redex_head a d = true ->
  negation_redex s = false -> re_sub_t r repl s = s.
Proof.
  intros Hr Hh Hs. unfold re_sub_t.
  destruct (parse_template (u repl)); [ | reflexivity].
  unfold re_sub_fun. rewrite scan_no_match; [apply flat_map_text | ].
  intros adv b' s' Hsuf.
  destruct (match_at adv r b' s') eqn:E; [ | reflexivity].
  destruct (@starts2_match_at r a d adv b' s' Hr) as [s'' ->]; [congruence | ].
  apply negation_redex_suffix in Hsuf; [ | exact Hs].
  simpl in Hsuf. rewrite Hh in Hsuf. discriminate.
Qed.

(** A text without such a negation is a fixpoint of
    [move_negation_inward]. *)
Lemma move_negation_inward_fixpoint s :
  negation_redex s = false -> move_negation_inward s = s.
Proof.
  intros H. unfold move_negation_inward.
  rewrite (@re_sub_t_no_redex (rx "¬\((.?) ∧ (.?)\)") _ (ch "¬") (ch "("))
    by (reflexivity || exact H).
  rewrite (@re_sub_t_no_redex (rx "¬\((.?) ∨ (.?)\)") _ (ch "¬") (ch "("))
    by (reflexivity || exact H).
  rewrite (@re_sub_t_no_redex (rx "¬∀(.?) (.?)") _ (ch "¬") (ch "∀"))
    by (reflexivity || exact H).
  rewrite (@re_sub_t_no_redex (rx "¬∃(.?) (.?)") _ (ch "¬") (ch "∃"))
    by (reflexivity || exact H).
  rewrite (@re_sub_t_no_redex (rx "¬¬(.*?)") _ (ch "¬") (ch "¬"))
    by (reflexivity || exact H).
  reflexivity.
Qed.

(** ** Implications between operands of at most one character *)

Definition is_arrow (c : char) : bool := (c =? ch "⇒") || (c =? ch "⇔").

Ltac eval_patterns :=
  repeat match goal with
         | |- context [rx ?s] =>
           let r := eval vm_compute in (rx s) in change (rx s) with r
         | |- context [parse_template (u ?s)] =>
           let t := eval vm_compute in (parse_template (u s)) in
           change (parse_template (u s)) with t
         end.

(** The four shapes of a pair of operands of at most one character. *)
Ltac split_operands p q Hp Hq Hd :=
  unfold short in Hp, Hq;
  destruct p as [ | ? [ | ? ?]]; [ | | simpl in Hp; lia];
  (destruct q as [ | ? [ | ? ?]]; [ | | simpl in Hq; lia]);
  simpl in Hd;
  repeat match type of Hd with
         | (_ && _) = true =>
           let H := fresh "Hdot" in
           apply andb_true_iff in Hd; destruct Hd as [H Hd]
         end.

(** Runs the matcher on a text whose only unknown characters are known
    to be matched by the dot. *)
Ltac run_matcher :=
  unfold re_sub_t, re_sub_fun; eval_patterns;
  repeat (cbn -[is_dot];
          repeat match goal with
                 | H : is_dot ?c = true |- context [is_dot ?c] => rewrite H
                 end);
  try reflexivity.

Lemma sub_implication (p q : str) :
  short p -> short q -> forallb is_dot (p ++ q) = true ->
  re_sub_t (rx "\((.?) ⇒ (.?)\)") "(¬\1 ∨ \2)"
           (u "(" ++ p ++ u " ⇒ " ++ q ++ u ")")
  = u "(¬" ++ p ++ u " ∨ " ++ q ++ u ")".
Proof.
  intros Hp Hq Hd. split_operands p q Hp Hq Hd; run_matcher.
Qed.

Lemma sub_biconditional (p q : str) :
  short p -> short q -> forallb is_dot (p ++ q) = true ->
  re_sub_t (rx "\((.?) ⇔ (.?)\)") "(¬\1 ∨ \2) ∧ (¬\2 ∨ \1)"
           (u "(" ++ p ++ u " ⇔ " ++ q ++ u ")")
  = u "(¬" ++ p ++ u " ∨ " ++ q ++ u ") ∧ (¬" ++ q ++ u " ∨ " ++ p ++ u ")".
Proof.
  intros Hp Hq Hd. split_operands p q Hp Hq Hd; run_matcher.
Qed.

Lemma lacks_cons P c s : lacks P (c :: s) = negb (P c) && lacks P s.
Proof. reflexivity. Qed.

Lemma lacks_arrow_eqb (a : char) (s : str) :
  is_arrow a = true -> lacks is_arrow s = true -> lacks (N.eqb a) s = true.
Proof.
  intros Ha Hs. unfold lacks in *. rewrite forallb_forall in *.
  intros c Hc. specialize (Hs c Hc).
  destruct (N.eqb_spec a c) as [<- | ]; [ | reflexivity].
  rewrite Ha in Hs. discriminate.
Qed.

(** ** The resolution loop *)

Lemma resolve_spec clause_i clause_j r :
  In r (resolve clause_i clause_j) <->
  exists literal_i literal_j,
    In literal_i clause_i /\ In literal_j clause_j /\
    complementary literal_i literal_j = true /\
    r = diff (union clause_i clause_j) [literal_i; literal_j].
Proof.
  unfold resolve. rewrite in_flat_map. split.
  - intros (li & Hi & H). apply in_flat_map in H. destruct H as (lj & Hj & H).
    destruct (complementary li lj) eqn:E; simpl in H; [ | tauto].
    destruct H as [<- | []]. exists li, lj. auto.
  - intros (li & lj & Hi & Hj & E & ->). exists li. split; [exact Hi | ].
    apply in_flat_map. exists lj. split; [exact Hj | ].
    rewrite E. simpl. auto.
Qed.

(** The set of new clauses stays empty: a sweep either finds the empty
    resolvent, or fails on the first resolvent it would have to add, or
    adds nothing. *)
Lemma sweep_empty pairs :
  sweep pairs [] = Ret None \/ sweep pairs [] = Raise TypeError \/
  sweep pairs [] = Ret (Some []).
Proof.
  induction pairs as [ | [clause_i clause_j] pairs IH]; simpl; [auto | ].
  destruct (existsb (set_eqb []) (resolve clause_i clause_j)); [auto | ].
  destruct (resolve clause_i clause_j); simpl; auto.
Qed.

Lemma forallb_const_true (A : Type) (l : list A) :
  forallb (fun _ => true) l = true.
Proof. induction l; simpl; auto. Qed.


(** Where no pair of clauses has a resolvent the loop returns [False]. *)
Lemma resolution_loop_no_resolvent clauses :
  (forall clause_i clause_j,
      In (clause_i, clause_j) (combinations2 clauses) ->
      resolve clause_i clause_j = []) ->
  resolution_loop 1 clauses = Some (Ret false).
Proof.
  intros H. simpl.
  assert (E : sweep (combinations2 clauses) [] = Ret (Some [])).
  { induction (combinations2 clauses) as [ | [ci cj] pairs IH]; [reflexivity | ].
    simpl. rewrite (H ci cj) by (simpl; auto). simpl.
    apply IH. intros; apply H; simpl; auto. }
  rewrite E. simpl. now rewrite forallb_const_true.
Qed.

(** * The claims that hold for every input *)

(** C7, amended.  Where the result of [move_negation_inward] holds no
    negation sign directly before a parenthesis, a quantifier or another
    negation sign, a second application returns the same text. *)
Theorem move_negation_inward_twice (s : str) :
  negation_redex (move_negation_inward s) = false ->
  move_negation_inward (move_negation_inward s) = move_negation_inward s.
Proof. apply move_negation_inward_fixpoint. Qed.


(** On a formula without quantifier signs, where three of the four
    stages in question do nothing, the order of the stages in
    [resolution] and the order in [print_propositions_in_cnf] give the
    same CNF text. *)
Lemma stage_orders_agree_quantifier_free (prop : str) :
  quantifier_free prop = true -> resolution_cnf prop = print_cnf prop.
Proof.
  intros H. rewrite resolution_cnf_quantifier_free by exact H.
  now rewrite print_cnf_quantifier_free.
Qed.

(** C10, amended.  The dictionary of [standardize_variable_scope] maps
    every captured name to itself, and the function returns its argument
    unchanged unless a captured name is a backslash; then it raises
    [re.error]. *)
Theorem standardize_variable_scope_unchanged (formula : str) :
  Forall (fun kv => snd kv = fst kv)
         (build_variable_map
            (re_findall (rx "(∀|∃)(.?)\s(.?)\b") formula)) /\
  standardize_variable_scope formula =
  if existsb is_bslash (quantifier_variables formula)
  then Raise ReError else Ret formula.
Proof.
  split; [ | apply standardize_variable_scope_spec].
  pose proof (quantifier_variables_short formula) as Hs.
  unfold build_variable_map. fold add_variable.
  destruct (@build_variable_map_spec is_bslash _ [] Hs (Forall_nil _))
    as [H _].
  revert H. apply Forall_impl. now intros kv [_ H].
Qed.

(** * Further properties of the program *)

(** ** Clause extraction *)

Definition is_connective (c : char) : bool := (c =? ch "∧") || (c =? ch "∨").

Lemma forallb_rev_true (P : char -> bool) l :
  forallb P l = true -> forallb P (rev l) = true.
Proof.
  rewrite !forallb_forall. intros H x Hx. apply H. now apply in_rev.
Qed.

Lemma split_scan_not_nil sep s : forall skip cur,
  split_scan sep skip cur s <> [].
Proof.
  induction s as [ | x s IH]; intros skip cur; simpl; [discriminate | ].
  destruct skip; [ | apply IH].
  destruct (prefixb sep (x :: s)); [discriminate | apply IH].
Qed.

(** The fields of a split are made of characters of the text. *)
Lemma split_scan_forallb (P : char -> bool) sep s : forall skip cur,
  forallb P cur = true -> forallb P s = true ->
  Forall (fun f => forallb P f = true) (split_scan sep skip cur s).
Proof.
  induction s as [ | x s IH]; intros skip cur Hc Hs; simpl.
  - constructor; [now apply forallb_rev_true | constructor].
  - simpl in Hs. apply andb_true_iff in Hs. destruct Hs as [Hx Hs].
    destruct skip; [ | now apply IH].
    destruct (prefixb sep (x :: s)).
    + constructor; [now apply forallb_rev_true | now apply IH].
    + apply IH; [simpl; now rewrite Hx | exact Hs].
Qed.

(** Splitting at one character: no field holds it. *)
Lemma split_char_lacks c s : forall cur,
  lacks (N.eqb c) cur = true ->
  Forall (fun f => lacks (N.eqb c) f = true) (split_scan [c] O cur s).
Proof.
  induction s as [ | x s IH]; intros cur Hc; simpl.
  - constructor; [now apply forallb_rev_true | constructor].
  - destruct (N.eqb_spec c x) as [-> | Hx]; simpl.
    + constructor; [now apply forallb_rev_true | now apply IH].
    + apply IH. unfold lacks. simpl.
      apply N.eqb_neq in Hx. now rewrite Hx.
Qed.

(** A text without the separator is its own single field. *)
Lemma split_char_none c s : forall cur,
  lacks (N.eqb c) s = true -> split_scan [c] O cur s = [rev cur ++ s].
Proof.
  induction s as [ | x s IH]; intros cur Hs; simpl.
  - now rewrite app_nil_r.
  - unfold lacks in Hs. simpl in Hs. apply andb_true_iff in Hs.
    destruct Hs as [Hx Hs]. apply negb_true_iff in Hx. rewrite Hx. simpl.
    rewrite IH by exact Hs. simpl. now rewrite <- app_assoc.
Qed.

Lemma lacks_impl (P Q : char -> bool) s :
  (forall c, Q c = true -> P c = true) ->
  lacks P s = true -> lacks Q s = true.
Proof.
  intros H. unfold lacks. rewrite !forallb_forall. intros HP c Hc.
  specialize (HP c Hc). destruct (Q c) eqn:E; [ | reflexivity].
  now rewrite (H c E) in HP.
Qed.

Lemma lacks_connective s :
  lacks is_connective s = true <->
  lacks (N.eqb (ch "∧")) s = true /\ lacks (N.eqb (ch "∨")) s = true.
Proof using.
  unfold lacks, is_connective. rewrite !forallb_forall. split.
  - intros H. split; intros c Hc; specialize (H c Hc);
      rewrite N.eqb_sym; apply negb_true_iff in H;
      apply orb_false_iff in H; apply negb_true_iff;
      [exact (proj1 H) | exact (proj2 H)].
  - intros [H1 H2] c Hc. specialize (H1 c Hc). specialize (H2 c Hc).
    rewrite N.eqb_sym in H1, H2. apply negb_true_iff in H1, H2.
    now rewrite H1, H2.
Qed.

(** X1.  [clauses_from_formula] never returns the empty list, and none
    of its clauses is empty or holds a literal twice. *)
Theorem clauses_from_formula_nonempty (formula : str) :
  clauses_from_formula formula <> [] /\
  Forall (fun c : clause => c <> [] /\ NoDup c) (clauses_from_formula formula).
Proof.
  unfold clauses_from_formula, split. split.
  - intros H. apply map_eq_nil in H. revert H. apply split_scan_not_nil.
  - apply Forall_map. apply Forall_forall. intros conj _. unfold set_of.
    split; [ | apply NoDup_nodup].
    destruct (split_scan (u "∨") O [] conj) as [ | f fs] eqn:E.
    + now apply split_scan_not_nil in E.
    + intros H. assert (Hin : In f (nodup str_eq_dec (f :: fs)))
        by (apply nodup_In; simpl; auto).
      rewrite H in Hin. destruct Hin.
Qed.

(** X2.  A text without ∧ and ∨ is one clause of one literal, the
    text itself. *)
Theorem clauses_from_formula_literal (formula : str) :
  lacks is_connective formula = true ->
  clauses_from_formula formula = [[formula]].
Proof.
  intros H. apply lacks_connective in H. destruct H as [Ha Ho].
  unfold clauses_from_formula, split.
  change (u "∧") with [ch "∧"]. change (u "∨") with [ch "∨"].
  rewrite split_char_none by exact Ha. simpl.
  rewrite split_char_none by exact Ho. reflexivity.
Qed.

(** X3.  No literal of a clause of [clauses_from_formula] holds ∧ or
    ∨. *)
Theorem clauses_from_formula_literals (formula : str) :
  Forall (fun c : clause => Forall (fun l => lacks is_connective l = true) c)
         (clauses_from_formula formula).
Proof.
  unfold clauses_from_formula, split.
  change (u "∧") with [ch "∧"]. change (u "∨") with [ch "∨"].
  apply Forall_map.
  pose proof (@split_char_lacks (ch "∧") formula [] eq_refl) as Hc.
  revert Hc. apply Forall_impl. intros conj Hconj.
  apply Forall_forall. intros l Hl. unfold set_of in Hl.
  apply nodup_In in Hl. apply lacks_connective. split.
  - pose proof (@split_scan_forallb (fun x => negb (ch "∧" =? x))
                  [ch "∨"] conj O [] eq_refl Hconj) as H.
    rewrite Forall_forall in H. now apply H.
  - pose proof (@split_char_lacks (ch "∨") conj [] eq_refl) as H.
    rewrite Forall_forall in H. now apply H.
Qed.

(** ** Resolution *)

Lemma mem_In x (a : pyset) : mem x a = true <-> In x a.
Proof.
  unfold mem. rewrite existsb_exists. split.
  - intros (y & Hy & E). unfold str_eqb in E.
    destruct (str_eq_dec x y); [now subst | discriminate].
  - intros H. exists x. split; [exact H | ]. unfold str_eqb.
    destruct (str_eq_dec x x); congruence.
Qed.

Lemma In_union x (a b : pyset) : In x (union a b) <-> In x a \/ In x b.
Proof. unfold union. rewrite nodup_In. apply in_app_iff. Qed.

Lemma In_diff x (a b : pyset) : In x (diff a b) <-> In x a /\ ~ In x b.
Proof.
  unfold diff. rewrite filter_In, negb_true_iff, <- not_true_iff_false.
  now rewrite mem_In.
Qed.

Lemma str_eqb_eq a b : str_eqb a b = true <-> a = b.
Proof. unfold str_eqb. destruct (str_eq_dec a b); split; congruence. Qed.

Lemma complementary_spec literal_i literal_j :
  complementary literal_i literal_j = true <->
  literal_i = u "¬" ++ literal_j \/ u "¬" ++ literal_i = literal_j.
Proof.
  unfold complementary. now rewrite orb_true_iff, !str_eqb_eq.
Qed.

(** A clause that holds a literal and its negation. *)
Definition tautology (c : clause) : bool :=
  existsb (fun l => mem (u "¬" ++ l) c) c.

Lemma complementary_tautology (c : clause) a b :
  In a c -> In b c -> complementary a b = true -> tautology c = true.
Proof.
  intros Ha Hb H. apply complementary_spec in H. unfold tautology.
  apply existsb_exists. destruct H as [-> | <-].
  - exists b. split; [exact Hb | now apply mem_In].
  - exists a. split; [exact Ha | now apply mem_In].
Qed.

Lemma literal_holds_neg v l :
  literal_holds v (u "¬" ++ l) = negb (literal_holds v l).
Proof. reflexivity. Qed.

Lemma complementary_holds v a b :
  complementary a b = true -> literal_holds v a = negb (literal_holds v b).
Proof.
  intros H. apply complementary_spec in H. destruct H as [-> | <-].
  - apply literal_holds_neg.
  - rewrite literal_holds_neg. now rewrite negb_involutive.
Qed.

(** X4.  Where neither resolved literal occurs in the other clause,
    the resolvent of [resolve] has the literals of the resolution rule:
    those of either clause without its own resolved literal. *)
Theorem resolve_agrees_with_rule (clause_i clause_j : clause)
    (literal_i literal_j : str) :
  In literal_i clause_i -> In literal_j clause_j ->
  complementary literal_i literal_j = true ->
  ~ In literal_i clause_j -> ~ In literal_j clause_i ->
  In (diff (union clause_i clause_j) [literal_i; literal_j])
     (resolve clause_i clause_j) /\
  forall x,
    In x (diff (union clause_i clause_j) [literal_i; literal_j]) <->
    In x (binary_resolvent clause_i clause_j literal_i literal_j).
Proof.
  intros Hi Hj Hc Hij Hji. split.
  - apply resolve_spec. exists literal_i, literal_j. auto.
  - intros x. unfold binary_resolvent.
    rewrite In_diff, !In_union, !In_diff. simpl. split.
    + intros [[H | H] Hn]; [left | right]; split; auto; tauto.
    + intros [[H Hn] | [H Hn]]; (split; [tauto | ]).
      * intros [<- | [<- | []]]; tauto.
      * intros [<- | [<- | []]]; tauto.
Qed.

(** X5.  On clauses that hold no literal together with its negation
    [resolve] is sound: a valuation that satisfies both clauses
    satisfies every resolvent. *)
Theorem resolve_sound (clause_i clause_j r : clause) (v : valuation) :
  tautology clause_i = false -> tautology clause_j = false ->
  In r (resolve clause_i clause_j) ->
  clause_holds v clause_i = true -> clause_holds v clause_j = true ->
  clause_holds v r = true.
Proof.
  intros Ti Tj Hr Hvi Hvj. apply resolve_spec in Hr.
  destruct Hr as (li & lj & Hi & Hj & Hc & ->).
  assert (Hji : ~ In lj clause_i).
  { intros H. now rewrite (@complementary_tautology _ _ _ Hi H Hc) in Ti. }
  assert (Hij : ~ In li clause_j).
  { intros H. now rewrite (@complementary_tautology _ _ _ H Hj Hc) in Tj. }
  pose proof (@complementary_holds v _ _ Hc) as Hv.
  unfold clause_holds in *. apply existsb_exists in Hvi, Hvj.
  destruct Hvi as (m & Hm & Hmv). destruct Hvj as (m' & Hm' & Hmv').
  apply existsb_exists. destruct (literal_holds v li) eqn:E.
  - exists m'. split; [ | exact Hmv'].
    apply In_diff. split; [apply In_union; auto | ].
    intros [<- | [<- | []]]; [tauto | ].
    symmetry in Hv. apply negb_true_iff in Hv. congruence.
  - exists m. split; [ | exact Hmv].
    apply In_diff. split; [apply In_union; auto | ].
    intros [<- | [<- | []]]; [congruence | tauto].
Qed.

Lemma set_eqb_nil r : set_eqb [] r = true -> r = [].
Proof.
  unfold set_eqb, subset. simpl. destruct r as [ | x r]; [reflexivity | ].
  discriminate.
Qed.

Lemma combinations2_In (A : Type) (l : list A) a b :
  In (a, b) (combinations2 l) -> In a l /\ In b l.
Proof.
  induction l as [ | x l IH]; simpl; [tauto | ].
  rewrite in_app_iff, in_map_iff.
  intros [(y & [= <- <-] & Hy) | H]; [auto | ].
  apply IH in H. tauto.
Qed.

(** A sweep that ends in [return True] met a pair with the empty
    resolvent. *)
Lemma sweep_contradiction pairs :
  sweep pairs [] = Ret None ->
  exists clause_i clause_j,
    In (clause_i, clause_j) pairs /\ In [] (resolve clause_i clause_j).
Proof.
  induction pairs as [ | [ci cj] pairs IH]; simpl; [discriminate | ].
  destruct (existsb (set_eqb []) (resolve ci cj)) eqn:E.
  - intros _. apply existsb_exists in E. destruct E as (r & Hr & E).
    apply set_eqb_nil in E. subst r. exists ci, cj. auto.
  - destruct (resolve ci cj); simpl; [ | discriminate].
    intros H. apply IH in H. destruct H as (a & b & Hin & H).
    exists a, b. auto.
Qed.

Lemma sweep_saturated pairs :
  sweep pairs [] = Ret (Some []) <->
  flat_map (fun ij => resolve (fst ij) (snd ij)) pairs = [].
Proof.
  induction pairs as [ | [ci cj] pairs IH];
    cbn [sweep flat_map fst snd]; [tauto | ].
  destruct (resolve ci cj) as [ | r rs].
  - simpl. exact IH.
  - destruct (existsb (set_eqb []) (r :: rs)); simpl; split; intros H;
      discriminate H.
Qed.

(** X6.  The loop answers [False] exactly when no two clauses have a
    resolvent, that is when no clause holds a literal whose negation is
    in another clause. *)
Theorem resolution_loop_false_iff (rounds : nat) (clauses : list clause) :
  resolution_loop (S rounds) clauses = Some (Ret false) <->
  all_resolvents clauses = [].
Proof.
  unfold all_resolvents. rewrite <- sweep_saturated. simpl.
  destruct (sweep_empty (combinations2 clauses)) as [E | [E | E]];
    rewrite E; simpl.
  - split; discriminate.
  - split; discriminate.
  - rewrite forallb_const_true. tauto.
Qed.

(** X7.  On a clause list without tautologies the answer [True] is
    sound: the list is unsatisfiable, because two of its clauses are a
    literal and its negation. *)
Theorem resolution_loop_sound_without_tautologies
    (rounds : nat) (clauses : list clause) :
  forallb (fun c => negb (tautology c)) clauses = true ->
  resolution_loop (S rounds) clauses = Some (Ret true) ->
  ~ satisfiable clauses.
Proof.
  intros Ht H. simpl in H.
  destruct (sweep_empty (combinations2 clauses)) as [E | [E | E]];
    rewrite E in H;
    [ | discriminate
      | simpl in H; rewrite forallb_const_true in H; discriminate].
  - clear H. apply sweep_contradiction in E.
    destruct E as (ci & cj & Hin & Hr).
    apply combinations2_In in Hin. destruct Hin as [Hci Hcj].
    rewrite forallb_forall in Ht.
    pose proof (Ht _ Hci) as Ti. pose proof (Ht _ Hcj) as Tj.
    apply negb_true_iff in Ti, Tj.
    apply resolve_spec in Hr.
    destruct Hr as (li & lj & Hi & Hj & Hc & Hr).
    intros [v Hv]. rewrite forallb_forall in Hv.
    assert (Hx : forall x, In x ci \/ In x cj -> x = li \/ x = lj).
    { intros x Hx.
      destruct (str_eq_dec x li) as [ | Nli]; [auto | ].
      destruct (str_eq_dec x lj) as [ | Nlj]; [auto | exfalso].
      assert (Hd : In x (diff (union ci cj) [li; lj])).
      { apply In_diff. split; [now apply In_union | ].
        simpl. intros [ | [ | []]]; congruence. }
      rewrite <- Hr in Hd. destruct Hd. }
    assert (Hji : ~ In lj ci).
    { intros H. now rewrite (@complementary_tautology _ _ _ Hi H Hc) in Ti. }
    assert (Hij : ~ In li cj).
    { intros H. now rewrite (@complementary_tautology _ _ _ H Hj Hc) in Tj. }
    pose proof (Hv _ Hci) as Hvi. pose proof (Hv _ Hcj) as Hvj.
    unfold clause_holds in Hvi, Hvj. apply existsb_exists in Hvi, Hvj.
    destruct Hvi as (m & Hm & Hmv). destruct Hvj as (m' & Hm' & Hmv').
    assert (m = li) by (destruct (Hx m (or_introl Hm)); congruence).
    assert (m' = lj) by (destruct (Hx m' (or_intror Hm')); congruence).
    subst m m'. rewrite (@complementary_holds v _ _ Hc), Hmv' in Hmv.
    discriminate.
Qed.

(** ** Formulas that are clauses already *)

(** A text without arrow, conjunction and quantifier sign, and without
    a negation sign in front of a parenthesis or of another negation
    sign: a disjunction of literals. *)
Definition clause_form (s : str) : bool :=
  quantifier_free s && lacks is_arrow s && lacks (N.eqb (ch "∧")) s
  && negb (negation_redex s).

(** X20.  [eliminate_implication] returns a text without ⇒ and ⇔
    unchanged. *)
Theorem eliminate_implication_without_arrows (s : str) :
  lacks is_arrow s = true -> eliminate_implication s = s.
Proof.
  intros H. unfold eliminate_implication.
  rewrite needs_re_sub_t with (P := N.eqb (ch "⇒")) (s := s);
    [ | reflexivity | now apply lacks_arrow_eqb].
  now rewrite needs_re_sub_t with (P := N.eqb (ch "⇔")) (s := s);
    [ | reflexivity | now apply lacks_arrow_eqb].
Qed.

(** X21.  For operands [p] and [q] of at most one character, neither
    a line feed nor an arrow, [eliminate_implication] rewrites the text
    (p ⇒ q) to (¬p ∨ q) and the text (p ⇔ q) to (¬p ∨ q) ∧ (¬q ∨ p),
    and these outputs hold no ⇒ and no ⇔. *)
Theorem eliminate_implication_short_operands (p q : str) :
  short p -> short q ->
  forallb is_dot (p ++ q) = true ->
  lacks is_arrow (p ++ q) = true ->
  eliminate_implication (u "(" ++ p ++ u " ⇒ " ++ q ++ u ")")
  = u "(¬" ++ p ++ u " ∨ " ++ q ++ u ")" /\
  eliminate_implication (u "(" ++ p ++ u " ⇔ " ++ q ++ u ")")
  = u "(¬" ++ p ++ u " ∨ " ++ q ++ u ") ∧ (¬" ++ q ++ u " ∨ " ++ p ++ u ")" /\
  lacks is_arrow (eliminate_implication (u "(" ++ p ++ u " ⇒ " ++ q ++ u ")"))
  = true /\
  lacks is_arrow (eliminate_implication (u "(" ++ p ++ u " ⇔ " ++ q ++ u ")"))
  = true.
Proof.
  intros Hp Hq Hd Ha.
  pose proof Ha as Hpq. rewrite lacks_app in Hpq.
  apply andb_true_iff in Hpq. destruct Hpq as [Hap Haq].
  assert (E1 : eliminate_implication (u "(" ++ p ++ u " ⇒ " ++ q ++ u ")")
               = u "(¬" ++ p ++ u " ∨ " ++ q ++ u ")").
  { unfold eliminate_implication. rewrite sub_implication by assumption.
    apply (needs_re_sub_t (N.eqb (ch "⇔"))); [reflexivity | ].
    rewrite !lacks_app.
    rewrite (@lacks_arrow_eqb (ch "⇔") p), (@lacks_arrow_eqb (ch "⇔") q)
      by (reflexivity || assumption).
    reflexivity. }
  assert (E2 : eliminate_implication (u "(" ++ p ++ u " ⇔ " ++ q ++ u ")")
               = u "(¬" ++ p ++ u " ∨ " ++ q ++ u ") ∧ (¬" ++ q ++ u " ∨ "
                 ++ p ++ u ")").
  { unfold eliminate_implication.
    rewrite needs_re_sub_t
      with (P := N.eqb (ch "⇒")) (r := rx "\((.?) ⇒ (.?)\)").
    - now apply sub_biconditional.
    - reflexivity.
    - rewrite !lacks_app.
      rewrite (@lacks_arrow_eqb (ch "⇒") p), (@lacks_arrow_eqb (ch "⇒") q)
        by (reflexivity || assumption).
      reflexivity. }
  rewrite E1, E2. repeat split.
  - rewrite !lacks_app, Hap, Haq. reflexivity.
  - rewrite !lacks_app, Hap, Haq. reflexivity.
Qed.

Lemma convert_to_cnf_no_conjunction s :
  quantifier_free s = true -> lacks (N.eqb (ch "∧")) s = true ->
  convert_to_cnf s = s.
Proof.
  intros Hq H. unfold convert_to_cnf.
  rewrite (needs_re_sub_t (N.eqb (ch "∧"))) by (reflexivity || exact H).
  now rewrite (needs_re_findall is_quantifier) by (reflexivity || exact Hq).
Qed.

(** X8.  A formula in clause form passes all the stages unchanged but
    for one blank put in front of it, in the order of [resolution] and
    in the order of [print_propositions_in_cnf]. *)
Theorem stages_keep_clause_form (prop : str) :
  clause_form prop = true ->
  resolution_cnf prop = Ret (u " " ++ prop) /\
  print_cnf prop = Ret (u " " ++ prop).
Proof.
  unfold clause_form. intros H.
  apply andb_true_iff in H. destruct H as [H Hr].
  apply andb_true_iff in H. destruct H as [H Hc].
  apply andb_true_iff in H. destruct H as [Hq Ha].
  apply negb_true_iff in Hr.
  rewrite resolution_cnf_quantifier_free, print_cnf_quantifier_free
    by exact Hq.
  rewrite eliminate_implication_without_arrows by exact Ha.
  rewrite move_negation_inward_fixpoint by exact Hr.
  rewrite convert_to_cnf_no_conjunction; auto.
Qed.

(** The signs of the formula language, and with the parenthesis the
    characters that an operand of one character must not be. *)
Definition is_sign (c : char) : bool :=
  is_quantifier c || is_connective c || is_arrow c || (c =? ch "¬").

Definition is_special (c : char) : bool :=
  is_quantifier c || is_connective c || (c =? ch "(") || (c =? ch "¬").

(** An atom: a text without sign that does not start with a
    parenthesis, such as P(a). *)
Definition atom_text (l : str) : bool :=
  lacks is_sign l && negb (prefixb (u "(") l).

Lemma lacks_special s :
  lacks is_special s = true ->
  quantifier_free s = true /\ lacks is_connective s = true /\
  lacks (N.eqb (ch "(")) s = true /\ lacks (N.eqb (ch "¬")) s = true.
Proof.
  intros H. repeat split; revert H; apply lacks_impl; intros c Hc;
    unfold is_special.
  - now rewrite Hc.
  - now rewrite Hc, orb_true_r.
  - rewrite N.eqb_sym in Hc. now rewrite Hc, !orb_true_r.
  - rewrite N.eqb_sym in Hc. now rewrite Hc, !orb_true_r.
Qed.

Lemma lacks_sign s :
  lacks is_sign s = true ->
  quantifier_free s = true /\ lacks is_connective s = true /\
  lacks is_arrow s = true /\ lacks (N.eqb (ch "¬")) s = true.
Proof.
  intros H. repeat split; revert H; apply lacks_impl; intros c Hc;
    unfold is_sign.
  - now rewrite Hc.
  - now rewrite Hc, orb_true_r.
  - now rewrite Hc, !orb_true_r.
  - rewrite N.eqb_sym in Hc. now rewrite Hc, !orb_true_r.
Qed.

Lemma negation_redex_lacks s :
  lacks (N.eqb (ch "¬")) s = true -> negation_redex s = false.
Proof.
  induction s as [ | c s IH]; [reflexivity | ].
  rewrite lacks_cons. intros H. apply andb_true_iff in H.
  destruct H as [Hc Hs]. destruct s as [ | d s]; [reflexivity | ].
  cbn [negation_redex] in *. rewrite IH by exact Hs. unfold redex_head.
  apply negb_true_iff in Hc. rewrite N.eqb_sym in Hc. now rewrite Hc.
Qed.

Lemma negation_redex_neg l :
  lacks is_special l = true -> negation_redex (ch "¬" :: l) = false.
Proof.
  intros H. destruct l as [ | d l]; [reflexivity | ].
  change (negation_redex (ch "¬" :: d :: l))
    with (redex_head (ch "¬") d || negation_redex (d :: l)).
  pose proof (lacks_special _ H) as (_ & _ & _ & Hn).
  rewrite (negation_redex_lacks _ Hn), orb_false_r.
  rewrite lacks_cons in H. apply andb_true_iff in H.
  destruct H as [Hd _]. apply negb_true_iff in Hd. unfold is_special in Hd.
  apply orb_false_iff in Hd. destruct Hd as [Hd H4].
  apply orb_false_iff in Hd. destruct Hd as [Hd H3].
  apply orb_false_iff in Hd. destruct Hd as [H1 _].
  unfold is_quantifier in H1. apply orb_false_iff in H1.
  destruct H1 as [H1 H2]. unfold redex_head. now rewrite H1, H2, H3, H4.
Qed.

Lemma negation_redex_atom l :
  atom_text l = true -> negation_redex (ch "¬" :: l) = false.
Proof.
  unfold atom_text. intros H. apply andb_true_iff in H.
  destruct H as [H Hp]. destruct l as [ | d l]; [reflexivity | ].
  change (negation_redex (ch "¬" :: d :: l))
    with (redex_head (ch "¬") d || negation_redex (d :: l)).
  pose proof (lacks_sign _ H) as (_ & _ & _ & Hn).
  rewrite (negation_redex_lacks _ Hn), orb_false_r.
  rewrite lacks_cons in H. apply andb_true_iff in H.
  destruct H as [Hd _]. apply negb_true_iff in Hd. unfold is_sign in Hd.
  apply orb_false_iff in Hd. destruct Hd as [Hd H4].
  apply orb_false_iff in Hd. destruct Hd as [Hd _].
  apply orb_false_iff in Hd. destruct Hd as [H1 _].
  unfold is_quantifier in H1. apply orb_false_iff in H1.
  destruct H1 as [H1 H2].
  change (prefixb (u "(") (d :: l)) with ((ch "(" =? d) && true) in Hp.
  rewrite andb_true_r, N.eqb_sym in Hp. apply negb_true_iff in Hp.
  unfold redex_head. now rewrite H1, H2, Hp, H4.
Qed.

Lemma clause_form_literal l :
  atom_text l = true ->
  clause_form l = true /\ clause_form (u "¬" ++ l) = true.
Proof.
  intros H. pose proof (negation_redex_atom _ H) as Hr.
  unfold atom_text in H. apply andb_true_iff in H. destruct H as [H _].
  pose proof (lacks_sign _ H) as (Hq & Hc & Ha & Hn).
  apply lacks_connective in Hc. destruct Hc as [Hc _].
  unfold clause_form.
  rewrite Hq, Ha, Hc, (negation_redex_lacks _ Hn). split; [reflexivity | ].
  change (u "¬" ++ l) with (ch "¬" :: l). rewrite Hr.
  unfold quantifier_free in *. rewrite !lacks_cons, Hq, Ha, Hc. reflexivity.
Qed.

Lemma blank_not_complementary a b :
  complementary (u " " ++ a) (u " " ++ b) = false.
Proof.
  unfold complementary. apply orb_false_iff. split.
  - destruct (str_eqb (u " " ++ a) (u "¬" ++ u " " ++ b)) eqn:E;
      [apply str_eqb_eq in E; discriminate E | reflexivity].
  - destruct (str_eqb (u "¬" ++ u " " ++ a) (u " " ++ b)) eqn:E;
      [apply str_eqb_eq in E; discriminate E | reflexivity].
Qed.

Lemma all_resolvents_units x y :
  complementary x y = false -> all_resolvents [[x]; [y]] = [].
Proof.
  intros H. unfold all_resolvents. cbn -[complementary]. now rewrite H.
Qed.

(** X9.  An atom and its negation given as two propositions are not
    refuted: both come out of the stages with a blank in front, which
    keeps the one from being ¬ followed by the other, and [resolution]
    returns [False]. *)
Theorem resolution_misses_unit_contradiction (rounds : nat) (l : str) :
  atom_text l = true ->
  resolution (S rounds) [l; u "¬" ++ l] = Some (Ret false).
Proof.
  intros H. destruct (clause_form_literal _ H) as [H1 H2].
  unfold atom_text in H. apply andb_true_iff in H. destruct H as [H _].
  apply lacks_sign in H. destruct H as (_ & Hc & _ & _).
  unfold resolution, clause_store.
  rewrite (proj1 (stages_keep_clause_form _ H1)).
  cbv beta iota delta [bind].
  rewrite (proj1 (stages_keep_clause_form _ H2)).
  cbv beta iota delta [bind].
  rewrite !clauses_from_formula_literal.
  - apply resolution_loop_false_iff. apply all_resolvents_units.
    apply blank_not_complementary.
  - change (u " " ++ u "¬" ++ l) with (ch " " :: ch "¬" :: l).
    now rewrite !lacks_cons, Hc.
  - change (u " " ++ l) with (ch " " :: l). now rewrite lacks_cons, Hc.
Qed.

(** ** The two callers *)








Section Printing.

Variable stdout_encodable : char -> bool.




End Printing.

(** ** The Skolem constants *)

Lemma skolem_step_raise e t : skolem_step (Raise e) t = Raise e.
Proof. reflexivity. Qed.

Lemma skolem_fold_raise e ts :
  fold_left skolem_step ts (Raise e) = Raise e.
Proof. induction ts as [ | t ts IH]; simpl; auto. Qed.

(** One step pops at most one constant and raises nothing but
    [IndexError]. *)
Lemma skolem_step_cases cs f t :
  (exists cs' f',
      skolem_step (Ret (cs, f)) t = Ret (cs', f') /\
      (List.length cs <= S (List.length cs'))%nat) \/
  (cs = [] /\ skolem_step (Ret (cs, f)) t = Raise IndexError).
Proof.
  unfold skolem_step. cbv beta iota delta [bind fst snd].
  destruct (re_search _ f).
  - left. eexists _, _. split; [reflexivity | lia].
  - destruct cs as [ | c cs]; [right; auto | left].
    eexists _, _. split; [reflexivity | simpl; lia].
Qed.

Lemma skolem_fold_cases ts : forall cs f,
  ((exists st, fold_left skolem_step ts (Ret (cs, f)) = Ret st) \/
   fold_left skolem_step ts (Ret (cs, f)) = Raise IndexError) /\
  ((List.length ts <= List.length cs)%nat ->
   exists st, fold_left skolem_step ts (Ret (cs, f)) = Ret st).
Proof.
  induction ts as [ | t ts IH]; intros cs f; cbn [fold_left List.length].
  - split; [left | intros _]; now exists (cs, f).
  - destruct (skolem_step_cases cs f t)
      as [(cs' & f' & -> & Hlen) | [-> ->]].
    + destruct (IH cs' f') as [H1 H2]. split; [exact H1 | ].
      intros H. apply H2. lia.
    + rewrite skolem_fold_raise. split; [now right | ].
      simpl. intros H. lia.
Qed.

(** The only exception [skolemization] raises is the
    [IndexError] of [pop(0)] on the empty list of constants. *)
Theorem skolemization_raises_only_IndexError (formula : str) :
  (exists r, skolemization formula = Ret r) \/
  skolemization formula = Raise IndexError.
Proof.
  unfold skolemization.
  destruct (skolem_fold_cases
              (re_findall (rx "∃(.?)\s(.?)\b") formula)
              [u "A"; u "B"; u "C"; u "D"; u "E"] formula)
    as [[[st ->] | ->] _]; [left | right]; simpl; eauto.
Qed.

(** X11.  With at most five matches of the existential pattern in the
    formula, the five constants suffice and [skolemization] returns. *)
Theorem skolemization_five_constants (formula : str) :
  (List.length (re_findall (rx "∃(.?)\s(.?)\b") formula) <= 5)%nat ->
  exists r, skolemization formula = Ret r.
Proof.
  intros H. unfold skolemization.
  destruct (skolem_fold_cases
              (re_findall (rx "∃(.?)\s(.?)\b") formula)
              [u "A"; u "B"; u "C"; u "D"; u "E"] formula)
    as [_ Hr].
  destruct (Hr H) as [st ->]. simpl. eauto.
Qed.

(** ** A match at the start of the text *)

Lemma scan_skip r s : forall n b,
  (n <= List.length s)%nat ->
  scan r n b s = scan r O (rev (firstn n s) ++ b) (skipn n s).
Proof.
  induction s as [ | x s IH]; intros n b Hn.
  - simpl in Hn. now replace n with O by lia.
  - destruct n as [ | n]; [reflexivity | ].
    change (scan r (S n) b (x :: s)) with (scan r n (x :: b) s).
    rewrite IH by (simpl in Hn; lia).
    change (skipn (S n) (x :: s)) with (skipn n s).
    change (firstn (S n) (x :: s)) with (x :: firstn n s).
    change (rev (x :: firstn n s)) with (rev (firstn n s) ++ [x]).
    now rewrite <- app_assoc.
Qed.

(** After a match of at least one character the scan goes on behind
    it. *)
Lemma scan_hit r b s n g :
  match_at false r b s = Some (S n, g) ->
  scan r O b s =
  hit (S n) g s :: scan r O (rev (firstn (S n) s) ++ b) (skipn (S n) s).
Proof.
  intros H. pose proof (match_at_inv _ _ _ _ H) as (w & s' & -> & Hn & _).
  destruct (w ++ s') as [ | x t] eqn:E.
  - destruct w; [discriminate | discriminate].
  - cbn [scan]. rewrite H. f_equal.
    change (skipn (S n) (x :: t)) with (skipn n t).
    change (firstn (S n) (x :: t)) with (x :: firstn n t).
    change (rev (x :: firstn n t)) with (rev (firstn n t) ++ [x]).
    rewrite scan_skip; [now rewrite <- app_assoc | ].
    assert (Hl : List.length (x :: t) = (List.length w + List.length s')%nat)
      by (rewrite <- E; apply length_app).
    simpl in Hl. lia.
Qed.

(** [re.sub] where the pattern matches at the start and nowhere behind
    that match. *)
Lemma re_sub_fun_first_hit P r repl s n g :
  match_at false r [] s = Some (S n, g) ->
  needs P r = true -> lacks P (skipn (S n) s) = true ->
  re_sub_fun r repl s
  = repl (MkMatch (firstn (S n) s) g) ++ skipn (S n) s.
Proof.
  intros H Hn Hl. unfold re_sub_fun. rewrite (@scan_hit _ _ _ _ _ H).
  cbn [flat_map hit]. f_equal.
  erewrite needs_scan by eauto. apply flat_map_text.
Qed.

Lemma re_sub_t_first_hit P r repl t s n g :
  parse_template (u repl) = Some t ->
  match_at false r [] s = Some (S n, g) ->
  needs P r = true -> lacks P (skipn (S n) s) = true ->
  re_sub_t r repl s
  = expand t (MkMatch (firstn (S n) s) g) ++ skipn (S n) s.
Proof.
  intros Ht H Hn Hl. unfold re_sub_t. rewrite Ht.
  eapply re_sub_fun_first_hit; eauto.
Qed.

Lemma re_findall_first_hit P r s n g :
  match_at false r [] s = Some (S n, g) ->
  needs P r = true -> lacks P (skipn (S n) s) = true ->
  re_findall r s
  = [map (group (MkMatch (firstn (S n) s) g)) (seq 1 (ngroups r))].
Proof.
  intros H Hn Hl. unfold re_findall. rewrite (@scan_hit _ _ _ _ _ H).
  erewrite needs_scan by eauto. cbn [hits flat_map hit app].
  now rewrite hits_text.
Qed.

(** The loop of the lazy star, by name. *)
Section LazyLoop.

Variable A : Type.
Variable r : regex.
Variable k : str -> str -> caps -> option A.

Fixpoint lazy_loop (fuel : nat) (b s : str) (g : caps) : option A :=
  match k b s g with
  | Some a => Some a
  | None =>
    match fuel with
    | O => None
    | S fuel' =>
      rmatch_k r b s g (fun b' s' g' =>
        if Nat.ltb (List.length s') (List.length s)
        then lazy_loop fuel' b' s' g' else None)
    end
  end.

End LazyLoop.

Lemma rmatch_k_lazy (A : Type) r b s g (k : str -> str -> caps -> option A) :
  rmatch_k (StarLazy r) b s g k = lazy_loop r k (List.length s) b s g.
Proof. reflexivity. Qed.

Lemma lazy_loop_S (A : Type) r (k : str -> str -> caps -> option A)
    fuel b s g :
  lazy_loop r k (S fuel) b s g =
  match k b s g with
  | Some a => Some a
  | None =>
    rmatch_k r b s g (fun b' s' g' =>
      if Nat.ltb (List.length s') (List.length s)
      then lazy_loop r k fuel b' s' g' else None)
  end.
Proof. reflexivity. Qed.

(** A lazy star whose continuation succeeds on the spot matches
    nothing. *)
Lemma lazy_star_stop (A : Type) r b s g
    (k : str -> str -> caps -> option A) a :
  k b s g = Some a -> rmatch_k (StarLazy r) b s g k = Some a.
Proof.
  intros H. rewrite rmatch_k_lazy.
  destruct (List.length s); simpl; now rewrite H.
Qed.

(** A lazy [.*?] in front of a continuation that wants the character
    [c] runs over a text without [c] and without line feed. *)
Lemma lazy_dot_until (A : Type) (c : char) t rest b g
    (k : str -> str -> caps -> option A) a :
  forallb is_dot t = true -> lacks (N.eqb c) t = true ->
  (forall (b' : str) (x : char) (s' : str),
      (c =? x) = false -> k b' (x :: s') g = None) ->
  k (rev t ++ b) rest g = Some a ->
  rmatch_k (StarLazy (Chr Dot)) b (t ++ rest) g k = Some a.
Proof.
  intros Hd Hc Hk Ha. rewrite rmatch_k_lazy.
  assert (Hf : (List.length t <= List.length (t ++ rest))%nat)
    by (rewrite length_app; lia).
  revert Hf. generalize (List.length (t ++ rest)) as fuel.
  revert b Hd Hc Ha. induction t as [ | x t IH]; intros b Hd Hc Ha fuel Hf.
  - simpl in Ha. destruct fuel; simpl; now rewrite Ha.
  - destruct fuel as [ | fuel]; [simpl in Hf; lia | ].
    rewrite lacks_cons in Hc. apply andb_true_iff in Hc.
    destruct Hc as [Hx Hc]. apply negb_true_iff in Hx.
    cbn [forallb] in Hd. apply andb_true_iff in Hd. destruct Hd as [Hdx Hd].
    change ((x :: t) ++ rest) with (x :: t ++ rest).
    rewrite lazy_loop_S, Hk by exact Hx.
    cbn [rmatch_k in_class]. rewrite Hdx.
    replace (Nat.ltb (List.length (t ++ rest)) (List.length (x :: t ++ rest)))
      with true by (symmetry; apply Nat.ltb_lt; simpl; lia).
    apply IH; auto.
    + cbn [rev] in Ha. now rewrite <- app_assoc in Ha.
    + simpl in Hf. lia.
Qed.

(** ** Quantifiers at the front *)

(** Brings the lengths the matcher subtracts to numerals. *)
Ltac fix_lengths :=
  repeat rewrite Nat.sub_succ_l by lia;
  rewrite ?Nat.sub_diag, ?Nat.sub_0_r, ?Nat.leb_refl.

(** Runs the matcher at one position of a text whose unknown
    characters are classified by hypotheses. *)
Ltac run_match_at :=
  unfold match_at; eval_patterns;
  repeat (cbn -[is_dot is_space Nat.sub];
          fix_lengths;
          repeat match goal with
                 | H : is_dot ?c = _ |- context [is_dot ?c] => rewrite H
                 | H : is_space ?c = _ |- context [is_space ?c] => rewrite H
                 end).

Lemma replace_scan_none c old new s :
  lacks (N.eqb c) s = true -> replace_scan (c :: old) new O s = s.
Proof.
  induction s as [ | x s IH]; [reflexivity | ].
  rewrite lacks_cons. intros H. apply andb_true_iff in H.
  destruct H as [Hx Hs]. apply negb_true_iff in Hx.
  cbn [replace_scan prefixb]. rewrite Hx. cbn [andb]. now rewrite IH.
Qed.

(** X12.  On a formula without quantifier sign
    [move_quantifiers_left] still puts the blank that separates the
    quantifiers from the rest: the result is the formula with one blank
    in front. *)
Theorem move_quantifiers_left_adds_blank (formula : str) :
  quantifier_free formula = true ->
  move_quantifiers_left formula = u " " ++ formula.
Proof. apply move_quantifiers_left_quantifier_free. Qed.

(** X13.  [eliminate_universal_quantifiers] removes a universal
    quantifier at the front, with its variable of one character and the
    white space after it, and returns the rest, which holds no ∀,
    unchanged. *)
Theorem eliminate_universal_quantifiers_strips (x w : char) (body : str) :
  is_dot x = true -> is_space w = true ->
  lacks (N.eqb (ch "∀")) body = true ->
  eliminate_universal_quantifiers (ch "∀" :: x :: w :: body) = body.
Proof.
  intros Hx Hw Hb. unfold eliminate_universal_quantifiers.
  destruct body as [ | c body]; [ | destruct (is_dot c) eqn:Hc].
  - rewrite re_sub_t_first_hit
      with (P := N.eqb (ch "∀")) (t := [TGroup 2]) (n := 2%nat)
           (g := [(2%nat, []); (1%nat, [x])]);
      try reflexivity.
    run_match_at. reflexivity.
  - rewrite re_sub_t_first_hit
      with (P := N.eqb (ch "∀")) (t := [TGroup 2]) (n := 3%nat)
           (g := [(2%nat, [c]); (1%nat, [x])]);
      try reflexivity.
    + run_match_at. reflexivity.
    + rewrite lacks_cons in Hb. apply andb_true_iff in Hb. tauto.
  - rewrite re_sub_t_first_hit
      with (P := N.eqb (ch "∀")) (t := [TGroup 2]) (n := 2%nat)
           (g := [(2%nat, []); (1%nat, [x])]);
      try reflexivity.
    + run_match_at. reflexivity.
    + exact Hb.
Qed.

(** X14.  [move_quantifiers_left] returns a formula unchanged that
    starts with its only quantifier, a variable of one character and a
    blank. *)
Theorem move_quantifiers_left_prenex (Q x : char) (body : str) :
  is_quantifier Q = true -> is_dot x = true -> is_space x = false ->
  quantifier_free body = true ->
  move_quantifiers_left (Q :: x :: ch " " :: body)
  = Q :: x :: ch " " :: body.
Proof.
  intros HQ Hx Hs Hb. unfold move_quantifiers_left.
  rewrite re_findall_first_hit
    with (P := is_quantifier) (n := 2%nat)
         (g := [(2%nat, [x]); (1%nat, [Q])]);
    [ | | reflexivity | exact Hb].
  - change (ngroups (rx "(∀|∃)(.*?)\s")) with 2%nat.
    cbn [seq map group lookup Nat.eqb m_caps fold_left item nth join app].
    change (u " ") with [ch " "]. cbn [app replace].
    cbn [replace_scan prefixb List.length pred]. rewrite !N.eqb_refl.
    cbn [andb app replace_scan].
    rewrite replace_scan_none; [reflexivity | ].
    revert Hb. apply lacks_impl. intros c Hc.
    apply N.eqb_eq in Hc. now subst c.
  - unfold is_quantifier in HQ. apply orb_true_iff in HQ.
    destruct HQ as [HQ | HQ]; apply N.eqb_eq in HQ; subst Q;
      run_match_at; reflexivity.
Qed.

(** X15.  [move_quantifiers_left] followed by
    [eliminate_universal_quantifiers] strips a universal quantifier at
    the front of a formula that holds no other quantifier. *)
Theorem universal_prefix_is_dropped (x : char) (body : str) :
  is_dot x = true -> is_space x = false ->
  quantifier_free body = true ->
  eliminate_universal_quantifiers
    (move_quantifiers_left (ch "∀" :: x :: ch " " :: body))
  = body.
Proof.
  intros Hx Hs Hb.
  rewrite move_quantifiers_left_prenex by (reflexivity || assumption).
  apply eliminate_universal_quantifiers_strips; [exact Hx | reflexivity | ].
  revert Hb. apply lacks_impl. intros c Hc. unfold is_quantifier.
  rewrite N.eqb_sym in Hc. now rewrite Hc.
Qed.

(** ** The distribution step *)

Lemma firstn_length_app (A : Type) (a b : list A) :
  firstn (List.length (a ++ b) - List.length b) (a ++ b) = a.
Proof.
  rewrite length_app, Nat.add_sub, firstn_app, Nat.sub_diag.
  now rewrite firstn_all, firstn_O, app_nil_r.
Qed.

Lemma firstn_length_snoc (A : Type) (a : list A) (x : A) :
  firstn (List.length (a ++ [x]) - 1) (a ++ [x]) = a.
Proof. exact (firstn_length_app a [x]). Qed.

(** The pattern of [convert_to_cnf] on p ∨ (q ∧ r): the third operand
    runs up to the closing parenthesis. *)
Lemma distribution_match (p q : char) (r : str) :
  is_dot p = true -> is_dot q = true ->
  forallb is_dot r = true -> lacks (N.eqb (ch ")")) r = true ->
  match_at false (rx "(.?) ∨ \((.?) ∧ (.*?)\)") []
           (p :: u " ∨ (" ++ q :: u " ∧ " ++ r ++ u ")")
  = Some (S (8 + List.length (r ++ u ")")),
          [(3%nat, r); (2%nat, [q]); (1%nat, [p])]).
Proof.
  intros Hp Hq Hr Hc. unfold match_at. eval_patterns.
  remember (StarLazy (Chr Dot)) as lz eqn:Elz.
  change (u " ∨ (") with [ch " "; ch "∨"; ch " "; ch "("].
  change (u " ∧ ") with [ch " "; ch "∧"; ch " "].
  change (u ")") with [ch ")"].
  repeat (cbn -[is_dot is_space Nat.sub]; fix_lengths; rewrite ?Hp, ?Hq).
  subst lz.
  erewrite (@lazy_dot_until _ (ch ")") _ _ _ _ _
              (S (8 + List.length (r ++ [41])),
               [(3%nat, r); (2%nat, [q]); (1%nat, [p])])); auto.
  - intros b' x s' Hx. rewrite N.eqb_sym in Hx.
    change (ch ")") with 41 in Hx. now rewrite Hx.
  - cbn -[Nat.sub]. rewrite Nat.sub_0_r.
    now rewrite (firstn_length_snoc r 41).
Qed.

(** X16.  [convert_to_cnf] distributes a disjunction over a
    parenthesised conjunction, p ∨ (q ∧ r) → (p ∨ q) ∧ (p ∨ r), where p
    and q are one character each and r is any text without closing
    parenthesis, line feed and quantifier. *)
Theorem convert_to_cnf_distributes (p q : char) (r : str) :
  is_dot p = true -> is_dot q = true ->
  forallb is_dot r = true -> lacks (N.eqb (ch ")")) r = true ->
  quantifier_free (p :: q :: r) = true ->
  convert_to_cnf (p :: u " ∨ (" ++ q :: u " ∧ " ++ r ++ u ")")
  = u "(" ++ p :: u " ∨ " ++ q :: u ") ∧ (" ++ p :: u " ∨ " ++ r ++ u ")".
Proof.
  intros Hp Hq Hr Hc Hf. unfold convert_to_cnf.
  pose proof (distribution_match p q r Hp Hq Hr Hc) as Hm.
  assert (Hlen : S (8 + List.length (r ++ u ")"))
                 = List.length (p :: u " ∨ (" ++ q :: u " ∧ " ++ r ++ u ")"))
    by reflexivity.
  rewrite re_sub_t_first_hit
    with (P := N.eqb (ch "("))
         (t := [TLit (ch "("); TGroup 1; TLit (ch " "); TLit (ch "∨");
                TLit (ch " "); TGroup 2; TLit (ch ")"); TLit (ch " ");
                TLit (ch "∧"); TLit (ch " "); TLit (ch "("); TGroup 1;
                TLit (ch " "); TLit (ch "∨"); TLit (ch " "); TGroup 3;
                TLit (ch ")")])
         (n := (8 + List.length (r ++ u ")"))%nat)
         (g := [(3%nat, r); (2%nat, [q]); (1%nat, [p])]);
    [ | reflexivity | exact Hm | reflexivity
      | rewrite Hlen, skipn_all; reflexivity].
  rewrite Hlen, skipn_all, app_nil_r.
  cbn [expand flat_map group lookup Nat.eqb m_caps app].
  unfold quantifier_free in Hf. rewrite !lacks_cons in Hf.
  apply andb_true_iff in Hf. destruct Hf as [Hfp Hf].
  apply andb_true_iff in Hf. destruct Hf as [Hfq Hfr].
  rewrite (needs_re_findall is_quantifier).
  - reflexivity.
  - reflexivity.
  - change (u ")") with [ch ")"].
    rewrite !lacks_cons, !lacks_app, !lacks_cons, Hfp, Hfq, Hfr.
    reflexivity.
Qed.

(** ** The rules of [move_negation_inward] *)

(** The character [a] directly before the character [d]. *)
Fixpoint adjacent (a d : char) (s : str) : bool :=
  match s with
  | c :: s' =>
    match s' with
    | e :: _ => ((c =? a) && (e =? d)) || adjacent a d s'
    | [] => false
    end
  | [] => false
  end.

Lemma adjacent_cons2 a d c e s :
  adjacent a d (c :: e :: s)
  = ((c =? a) && (e =? d)) || adjacent a d (e :: s).
Proof. reflexivity. Qed.

Lemma negation_redex_cons2 c e s :
  negation_redex (c :: e :: s) = redex_head c e || negation_redex (e :: s).
Proof. reflexivity. Qed.

Lemma adjacent_suffix a d s' s :
  is_suffix s' s -> adjacent a d s = false -> adjacent a d s' = false.
Proof.
  intros [pre ->]. induction pre as [ | x pre IH]; [auto | ].
  cbn [app]. destruct (pre ++ s') eqn:E.
  - destruct pre; [simpl in E; now subst | discriminate].
  - rewrite adjacent_cons2. intros H. apply orb_false_iff in H. tauto.
Qed.

Lemma starts2_not_adjacent r a d s :
  starts2 r = Some (a, d) -> adjacent a d s = false ->
  forall adv b' s', is_suffix s' s -> match_at adv r b' s' = None.
Proof.
  intros Hr Hs adv b' s' Hsuf.
  destruct (match_at adv r b' s') eqn:E; [ | reflexivity].
  destruct (@starts2_match_at r a d adv b' s' Hr) as [s'' ->]; [congruence | ].
  apply adjacent_suffix with (a := a) (d := d) in Hsuf; [ | exact Hs].
  rewrite adjacent_cons2, !N.eqb_refl in Hsuf. discriminate.
Qed.

Lemma negation_redex_adjacent d s :
  redex_head (ch "¬") d = true -> negation_redex s = false ->
  adjacent (ch "¬") d s = false.
Proof.
  intros Hd. induction s as [ | c s IH]; [reflexivity | ].
  destruct s as [ | e s]; [reflexivity | ].
  rewrite negation_redex_cons2, adjacent_cons2.
  intros H. apply orb_false_iff in H.
  destruct H as [H1 H2]. rewrite (IH H2), orb_false_r.
  destruct (N.eqb_spec c (ch "¬")) as [-> | ]; [ | reflexivity].
  destruct (N.eqb_spec e d) as [-> | ]; [ | reflexivity].
  congruence.
Qed.

Lemma re_sub_t_not_adjacent r repl a d s :
  starts2 r = Some (a, d) -> adjacent a d s = false ->
  re_sub_t r repl s = s.
Proof.
  intros Hr Hs. unfold re_sub_t.
  destruct (parse_template (u repl)); [ | reflexivity].
  unfold re_sub_fun. rewrite scan_no_match; [apply flat_map_text | ].
  now apply starts2_not_adjacent with (a := a) (d := d).
Qed.

Lemma re_sub_t_first_hit_adjacent r repl t a d s n g :
  parse_template (u repl) = Some t ->
  match_at false r [] s = Some (S n, g) ->
  starts2 r = Some (a, d) -> adjacent a d (skipn (S n) s) = false ->
  re_sub_t r repl s
  = expand t (MkMatch (firstn (S n) s) g) ++ skipn (S n) s.
Proof.
  intros Ht H Hr Hs. unfold re_sub_t, re_sub_fun. rewrite Ht.
  rewrite (@scan_hit _ _ _ _ _ H). cbn [flat_map hit]. f_equal.
  rewrite scan_no_match; [apply flat_map_text | ].
  now apply starts2_not_adjacent with (a := a) (d := d).
Qed.

Lemma negation_redex_tail c s :
  negation_redex (c :: s) = false -> negation_redex s = false.
Proof.
  apply negation_redex_suffix. now exists [c].
Qed.

(** The last three passes leave a text alone that holds no ¬ before a
    quantifier or another ¬. *)
Lemma quantifier_passes_fixpoint s :
  adjacent (ch "¬") (ch "∀") s = false ->
  adjacent (ch "¬") (ch "∃") s = false ->
  adjacent (ch "¬") (ch "¬") s = false ->
  re_sub_t (rx "¬¬(.*?)") "\1"
    (re_sub_t (rx "¬∃(.?) (.?)") "∀\1 ¬\2"
       (re_sub_t (rx "¬∀(.?) (.?)") "∃\1 ¬\2" s)) = s.
Proof.
  intros H1 H2 H3.
  rewrite re_sub_t_not_adjacent
    with (r := rx "¬∀(.?) (.?)") (a := ch "¬") (d := ch "∀")
    by (reflexivity || assumption).
  rewrite re_sub_t_not_adjacent
    with (r := rx "¬∃(.?) (.?)") (a := ch "¬") (d := ch "∃")
    by (reflexivity || assumption).
  now rewrite re_sub_t_not_adjacent
    with (r := rx "¬¬(.*?)") (a := ch "¬") (d := ch "¬")
    by (reflexivity || assumption).
Qed.

Lemma adjacent_cons_other a d c s :
  (c =? a) = false -> adjacent a d (c :: s) = adjacent a d s.
Proof.
  intros H. destruct s as [ | e s]; [reflexivity | ].
  rewrite adjacent_cons2, H. reflexivity.
Qed.

Lemma special_not_neg c : is_special c = false -> (c =? ch "¬") = false.
Proof.
  unfold is_special. intros H. apply orb_false_iff in H. tauto.
Qed.

(** Decides the comparisons of the unknown characters with the signs,
    under hypotheses that say which characters are not special. *)
Ltac split_chars :=
  repeat match goal with
         | |- context [N.eqb ?c ?k] =>
           is_var c; destruct (N.eqb_spec c k); [subst c | ]
         end;
  try match goal with
      | H : is_special ?k = false |- _ =>
        vm_compute in H; discriminate H
      | H : negb (is_special ?k) = true |- _ =>
        vm_compute in H; discriminate H
      end.

(** The result of a De Morgan rule on short operands holds no ¬
    before a parenthesis, quantifier or ¬. *)
Lemma de_morgan_output_clean (p q : str) (m : char) :
  short p -> short q -> lacks is_special (p ++ q) = true ->
  (m =? ch "¬") = false ->
  negation_redex (u "(¬" ++ p ++ ch " " :: m :: u " ¬" ++ q ++ u ")")
  = false.
Proof.
  intros Hp Hq Hs Hm. unfold short in *.
  destruct p as [ | pc [ | ? ?]]; [ | | simpl in Hp; lia];
    (destruct q as [ | qc [ | ? ?]]; [ | | simpl in Hq; lia]);
    cbn [app] in Hs; rewrite ?lacks_cons in Hs;
    repeat match type of Hs with
           | (_ && _) = true =>
             let H := fresh "Hsp" in
             apply andb_true_iff in Hs; destruct Hs as [H Hs]
           end;
    change (u "(¬") with [ch "("; ch "¬"];
    change (u " ¬") with [ch " "; ch "¬"];
    change (u ")") with [ch ")"]; cbn [app];
    rewrite !negation_redex_cons2; unfold redex_head;
    change (ch "(") with 40; change (ch "¬") with 172 in *;
    change (ch " ") with 32; change (ch ")") with 41;
    change (ch "∀") with 8704; change (ch "∃") with 8707;
    rewrite ?Hm; cbn [N.eqb Pos.eqb andb orb negation_redex];
    split_chars; reflexivity.
Qed.

Lemma sub_de_morgan_and (p q : str) :
  short p -> short q -> forallb is_dot (p ++ q) = true ->
  re_sub_t (rx "¬\((.?) ∧ (.?)\)") "(¬\1 ∨ ¬\2)"
           (u "¬(" ++ p ++ u " ∧ " ++ q ++ u ")")
  = u "(¬" ++ p ++ u " ∨ ¬" ++ q ++ u ")".
Proof.
  intros Hp Hq Hd. split_operands p q Hp Hq Hd; run_matcher.
Qed.

Lemma sub_de_morgan_or (p q : str) :
  short p -> short q -> forallb is_dot (p ++ q) = true ->
  re_sub_t (rx "¬\((.?) ∨ (.?)\)") "(¬\1 ∧ ¬\2)"
           (u "¬(" ++ p ++ u " ∨ " ++ q ++ u ")")
  = u "(¬" ++ p ++ u " ∧ ¬" ++ q ++ u ")".
Proof.
  intros Hp Hq Hd. split_operands p q Hp Hq Hd; run_matcher.
Qed.

(** X17.  The De Morgan rules of [move_negation_inward]: for operands
    of at most one character that are no line feed and no sign of the
    formula language, ¬(p ∧ q) becomes (¬p ∨ ¬q) and ¬(p ∨ q) becomes
    (¬p ∧ ¬q). *)
Theorem move_negation_inward_de_morgan (p q : str) :
  short p -> short q ->
  forallb is_dot (p ++ q) = true ->
  lacks is_special (p ++ q) = true ->
  move_negation_inward (u "¬(" ++ p ++ u " ∧ " ++ q ++ u ")")
  = u "(¬" ++ p ++ u " ∨ ¬" ++ q ++ u ")" /\
  move_negation_inward (u "¬(" ++ p ++ u " ∨ " ++ q ++ u ")")
  = u "(¬" ++ p ++ u " ∧ ¬" ++ q ++ u ")".
Proof.
  intros Hp Hq Hd Hs.
  pose proof (@de_morgan_output_clean p q (ch "∨") Hp Hq Hs eq_refl) as Hor.
  pose proof (@de_morgan_output_clean p q (ch "∧") Hp Hq Hs eq_refl) as Hand.
  destruct (lacks_special _ Hs) as (_ & Hc & _ & _).
  apply lacks_connective in Hc. destruct Hc as [Hca _].
  rewrite lacks_app in Hca. apply andb_true_iff in Hca.
  destruct Hca as [Hpa Hqa].
  unfold move_negation_inward. split.
  - rewrite sub_de_morgan_and by assumption.
    rewrite re_sub_t_not_adjacent
      with (r := rx "¬\((.?) ∨ (.?)\)") (a := ch "¬") (d := ch "(");
      [ | reflexivity | now apply negation_redex_adjacent].
    apply quantifier_passes_fixpoint; now apply negation_redex_adjacent.
  - rewrite needs_re_sub_t
      with (P := N.eqb (ch "∧")) (r := rx "¬\((.?) ∧ (.?)\)");
      [ | reflexivity
        | rewrite !lacks_app, Hpa, Hqa; reflexivity].
    rewrite sub_de_morgan_or by assumption.
    apply quantifier_passes_fixpoint; now apply negation_redex_adjacent.
Qed.

Lemma dual_input_clean (Q x : char) (body : str) (d : char) :
  is_special x = false -> (Q =? ch "¬") = false ->
  negation_redex (ch "¬" :: body) = false ->
  redex_head (ch "¬") d = true -> (Q =? d) = false ->
  adjacent (ch "¬") d (ch "¬" :: Q :: x :: ch " " :: body) = false.
Proof.
  intros Hx HQ Hb Hd HQd.
  rewrite adjacent_cons2, HQd, andb_false_r. cbn [orb].
  rewrite !adjacent_cons_other;
    [ | reflexivity | now apply special_not_neg | exact HQ].
  apply negation_redex_adjacent; [exact Hd | ].
  now apply negation_redex_tail in Hb.
Qed.

Lemma dual_output_clean (Q x : char) (body : str) (d : char) :
  is_special x = false -> (Q =? ch "¬") = false ->
  negation_redex (ch "¬" :: body) = false ->
  redex_head (ch "¬") d = true ->
  adjacent (ch "¬") d (Q :: x :: ch " " :: ch "¬" :: body) = false.
Proof.
  intros Hx HQ Hb Hd.
  rewrite (@adjacent_cons_other _ _ Q) by exact HQ.
  rewrite (@adjacent_cons_other _ _ x) by now apply special_not_neg.
  rewrite (@adjacent_cons_other _ _ (ch " ")) by reflexivity.
  now apply negation_redex_adjacent.
Qed.

Lemma dual_match (r : regex) (Q x : char) (body : str) :
  r = Cat (Chr (Ch (ch "¬")))
        (Cat (Chr (Ch Q))
           (Cat (Grp 1 (Cat (Quest (Chr Dot)) Eps))
              (Cat (Chr (Ch (ch " ")))
                 (Cat (Grp 2 (Cat (Quest (Chr Dot)) Eps)) Eps)))) ->
  is_dot x = true ->
  exists n g,
    match_at false r [] (ch "¬" :: Q :: x :: ch " " :: body)
    = Some (S n, g) /\
    group (MkMatch [] g) 1 = [x] /\
    group (MkMatch [] g) 2 ++ skipn (S n) (ch "¬" :: Q :: x :: ch " " :: body)
    = body.
Proof.
  intros -> Hx. unfold match_at.
  destruct body as [ | c body]; [ | destruct (is_dot c) eqn:Hc].
  - exists 3%nat, [(2%nat, []); (1%nat, [x])].
    repeat (cbn -[is_dot is_space Nat.sub]; fix_lengths;
            rewrite ?N.eqb_refl, ?Hx). auto.
  - exists 4%nat, [(2%nat, [c]); (1%nat, [x])].
    repeat (cbn -[is_dot is_space Nat.sub]; fix_lengths;
            rewrite ?N.eqb_refl, ?Hx, ?Hc). auto.
  - exists 3%nat, [(2%nat, []); (1%nat, [x])].
    repeat (cbn -[is_dot is_space Nat.sub]; fix_lengths;
            rewrite ?N.eqb_refl, ?Hx, ?Hc). auto.
Qed.

(** X18.  The quantifier rules of [move_negation_inward]: in front of
    a text that starts with an atom and holds no ¬ before a
    parenthesis, quantifier or ¬, the prefix ¬∀x becomes ∃x ¬ and
    the prefix ¬∃x becomes ∀x ¬, for a variable x of one character. *)
Theorem move_negation_inward_quantifier_duals (x : char) (body : str) :
  is_dot x = true -> is_special x = false ->
  negation_redex (ch "¬" :: body) = false ->
  move_negation_inward (u "¬∀" ++ x :: u " " ++ body)
  = u "∃" ++ x :: u " ¬" ++ body /\
  move_negation_inward (u "¬∃" ++ x :: u " " ++ body)
  = u "∀" ++ x :: u " ¬" ++ body.
Proof.
  intros Hx Hs Hb.
  pose proof (negation_redex_tail _ _ Hb) as Hb'.
  change (u "¬∀" ++ x :: u " " ++ body)
    with (ch "¬" :: ch "∀" :: x :: ch " " :: body).
  change (u "¬∃" ++ x :: u " " ++ body)
    with (ch "¬" :: ch "∃" :: x :: ch " " :: body).
  change (u "∃" ++ x :: u " ¬" ++ body)
    with (ch "∃" :: x :: ch " " :: ch "¬" :: body).
  change (u "∀" ++ x :: u " ¬" ++ body)
    with (ch "∀" :: x :: ch " " :: ch "¬" :: body).
  unfold move_negation_inward. split.
  - rewrite re_sub_t_not_adjacent
      with (r := rx "¬\((.?) ∧ (.?)\)") (a := ch "¬") (d := ch "(");
      [ | reflexivity | now apply dual_input_clean].
    rewrite re_sub_t_not_adjacent
      with (r := rx "¬\((.?) ∨ (.?)\)") (a := ch "¬") (d := ch "(");
      [ | reflexivity | now apply dual_input_clean].
    destruct (@dual_match (rx "¬∀(.?) (.?)") (ch "∀") x body eq_refl Hx)
      as (n & g & Hm & Hg1 & Hg2).
    rewrite re_sub_t_first_hit_adjacent
      with (r := rx "¬∀(.?) (.?)") (a := ch "¬") (d := ch "∀")
           (t := [TLit (ch "∃"); TGroup 1; TLit (ch " "); TLit (ch "¬");
                  TGroup 2]) (n := n) (g := g);
      [ | reflexivity | exact Hm | reflexivity | ].
    + cbn [expand flat_map app]. change (group _ 1) with (group (MkMatch [] g) 1).
      change (group _ 2) with (group (MkMatch [] g) 2).
      rewrite Hg1, app_nil_r. cbn [app]. rewrite Hg2.
      rewrite re_sub_t_not_adjacent
        with (r := rx "¬∃(.?) (.?)") (a := ch "¬") (d := ch "∃");
        [ | reflexivity | now apply dual_output_clean].
      now rewrite re_sub_t_not_adjacent
        with (r := rx "¬¬(.*?)") (a := ch "¬") (d := ch "¬");
        [ | reflexivity | now apply dual_output_clean].
    + apply adjacent_suffix with (s := body);
        [ | now apply negation_redex_adjacent].
      exists (group (MkMatch [] g) 2). symmetry. exact Hg2.
  - rewrite re_sub_t_not_adjacent
      with (r := rx "¬\((.?) ∧ (.?)\)") (a := ch "¬") (d := ch "(");
      [ | reflexivity | now apply dual_input_clean].
    rewrite re_sub_t_not_adjacent
      with (r := rx "¬\((.?) ∨ (.?)\)") (a := ch "¬") (d := ch "(");
      [ | reflexivity | now apply dual_input_clean].
    rewrite re_sub_t_not_adjacent
      with (r := rx "¬∀(.?) (.?)") (a := ch "¬") (d := ch "∀");
      [ | reflexivity | now apply dual_input_clean].
    destruct (@dual_match (rx "¬∃(.?) (.?)") (ch "∃") x body eq_refl Hx)
      as (n & g & Hm & Hg1 & Hg2).
    rewrite re_sub_t_first_hit_adjacent
      with (r := rx "¬∃(.?) (.?)") (a := ch "¬") (d := ch "∃")
           (t := [TLit (ch "∀"); TGroup 1; TLit (ch " "); TLit (ch "¬");
                  TGroup 2]) (n := n) (g := g);
      [ | reflexivity | exact Hm | reflexivity | ].
    + cbn [expand flat_map app]. change (group _ 1) with (group (MkMatch [] g) 1).
      change (group _ 2) with (group (MkMatch [] g) 2).
      rewrite Hg1, app_nil_r. cbn [app]. rewrite Hg2.
      now rewrite re_sub_t_not_adjacent
        with (r := rx "¬¬(.*?)") (a := ch "¬") (d := ch "¬");
        [ | reflexivity | now apply dual_output_clean].
    + apply adjacent_suffix with (s := body);
        [ | now apply negation_redex_adjacent].
      exists (group (MkMatch [] g) 2). symmetry. exact Hg2.
Qed.

(** X19.  The double negation rule of [move_negation_inward]: ¬¬ in
    front of a text that starts with an atom and holds no ¬ before a
    parenthesis, quantifier or ¬ is removed. *)
Theorem move_negation_inward_double_negation (body : str) :
  negation_redex (ch "¬" :: body) = false ->
  move_negation_inward (u "¬¬" ++ body) = body.
Proof.
  intros Hb. pose proof (negation_redex_tail _ _ Hb) as Hb'.
  change (u "¬¬" ++ body) with (ch "¬" :: ch "¬" :: body).
  assert (Hin : forall d, redex_head (ch "¬") d = true ->
                          (ch "¬" =? d) = false ->
                          adjacent (ch "¬") d (ch "¬" :: ch "¬" :: body)
                          = false).
  { intros d Hd Hnd. rewrite adjacent_cons2, Hnd, andb_false_r. cbn [orb].
    now apply negation_redex_adjacent. }
  unfold move_negation_inward.
  rewrite re_sub_t_not_adjacent
    with (r := rx "¬\((.?) ∧ (.?)\)") (a := ch "¬") (d := ch "(");
    [ | reflexivity | now apply Hin].
  rewrite re_sub_t_not_adjacent
    with (r := rx "¬\((.?) ∨ (.?)\)") (a := ch "¬") (d := ch "(");
    [ | reflexivity | now apply Hin].
  rewrite re_sub_t_not_adjacent
    with (r := rx "¬∀(.?) (.?)") (a := ch "¬") (d := ch "∀");
    [ | reflexivity | now apply Hin].
  rewrite re_sub_t_not_adjacent
    with (r := rx "¬∃(.?) (.?)") (a := ch "¬") (d := ch "∃");
    [ | reflexivity | now apply Hin].
  rewrite re_sub_t_first_hit_adjacent
    with (r := rx "¬¬(.*?)") (a := ch "¬") (d := ch "¬")
         (t := [TGroup 1]) (n := 1%nat) (g := [(1%nat, [])]);
    [reflexivity | reflexivity | | reflexivity
     | now apply negation_redex_adjacent].
  unfold match_at. eval_patterns.
  remember (StarLazy (Chr Dot)) as lz eqn:Elz.
  cbn -[Nat.sub]. subst lz.
  apply lazy_star_stop. cbn -[Nat.sub]. fix_lengths. reflexivity.
Qed.

End KB_to_CNF.

(** * The claims on the examples

    The examples are run with [operators_only] for the alphanumeric
    table: their characters are ASCII, the not sign and mathematical
    operators. *)

(** ** The resolution engine *)

(** C1.  The clause set of x∧p∨¬p and y∧p is satisfied by the valuation
    that makes every atom true, and [resolution] returns [True] on it:
    the tautology p ∨ ¬p and the unit clause p give the empty
    resolvent. *)
Theorem resolution_contradiction_on_satisfiable :
  clause_store operators_only [u "x∧p∨¬p"; u "y∧p"] []
  = Ret [[u " x"]; [u "p"; u "¬p"]; [u " y"]; [u "p"]] /\
  satisfiable [[u " x"]; [u "p"; u "¬p"]; [u " y"]; [u "p"]] /\
  resolution operators_only 1 [u "x∧p∨¬p"; u "y∧p"] = Some (Ret true).
Proof.
  split; [vm_compute; reflexivity | ].
  split; [ | vm_compute; reflexivity].
  exists (fun _ => true). vm_compute. reflexivity.
Qed.

(** C2.  For the clauses {p, ¬p} and {p}, resolved on ¬p and p, the
    rule leaves {p}; [resolve] returns the empty clause, because it
    takes both resolved literals out of the union. *)
Theorem resolve_drops_shared_literal :
  complementary (u "¬p") (u "p") = true /\
  binary_resolvent [u "p"; u "¬p"] [u "p"] (u "¬p") (u "p") = [u "p"] /\
  resolve [u "p"; u "¬p"] [u "p"] = [[]].
Proof. vm_compute. repeat split. Qed.

(** C3.  In the clause set of x∧p∨q, y∧¬p∨q and z∧q the only
    resolvent is {q}, which is in the set already, so the iteration
    produces no new clause; [resolution] raises [TypeError] instead of
    returning [False]. *)
Theorem resolution_raises_on_known_resolvent :
  clause_store operators_only [u "x∧p∨q"; u "y∧¬p∨q"; u "z∧q"] []
  = Ret [[u " x"]; [u "p"; u "q"]; [u " y"]; [u "¬p"; u "q"];
         [u " z"]; [u "q"]] /\
  all_resolvents [[u " x"]; [u "p"; u "q"]; [u " y"]; [u "¬p"; u "q"];
                  [u " z"]; [u "q"]] = [[u "q"]] /\
  resolution operators_only 1 [u "x∧p∨q"; u "y∧¬p∨q"; u "z∧q"] = Some (Raise TypeError).
Proof. vm_compute. repeat split. Qed.

(** The clauses P(a) and Q(a) have no resolvent, and [resolution]
    returns [False] on them. *)
Lemma resolution_saturated_Pa_Qa :
  resolution operators_only 1 [u "P(a)"; u "Q(a)"] = Some (Ret false).
Proof. vm_compute. reflexivity. Qed.

(** ** The normalisation stages *)

(** C4.  [skolemization] puts no Skolem term in the place of the
    existential variable: with no universal quantifier in front, with
    one, and on the example of its own comment, it deletes the
    quantifier together with the predicate sign that follows it and
    leaves the variable where it was. *)
Theorem skolemization_no_skolem_term :
  skolemization operators_only (u "∃y P(y)") = Ret (u "(y)") /\
  skolemization operators_only (u "∀x ∃y P(y)") = Ret (u "∀x (y)") /\
  skolemization operators_only (u "∃y P(A) ∨ Q(y)") = Ret (u "(A) ∨ Q(y)").
Proof. vm_compute. repeat split. Qed.

(** C5.  [standardize_variable_scope] returns (∀x P(x)) ∨ (∃x Q(x)) as
    it is: both quantifiers of the output still bind x. *)
Theorem standardize_keeps_colliding_names :
  standardize_variable_scope operators_only (u "(∀x P(x)) ∨ (∃x Q(x))")
  = Ret (u "(∀x P(x)) ∨ (∃x Q(x))") /\
  quantifier_variables operators_only (u "(∀x P(x)) ∨ (∃x Q(x))") = [u "x"; u "x"].
Proof. vm_compute. repeat split. Qed.

(** C6.  [eliminate_implication] returns the implication and the
    biconditional between the atoms P(x) and Q(x) as they are, where
    the comments of the function give (¬p ∨ q) and
    (¬p ∨ q) ∧ (¬q ∨ p): the groups (.?) of its patterns take one
    character at most, so ⇒ and ⇔ stay in the output. *)
Theorem eliminate_implication_long_operands :
  eliminate_implication operators_only (u "(P(x) ⇒ Q(x))") <> u "(¬P(x) ∨ Q(x))" /\
  eliminate_implication operators_only (u "(P(x) ⇒ Q(x))") = u "(P(x) ⇒ Q(x))" /\
  contains (eliminate_implication operators_only (u "(P(x) ⇒ Q(x))")) (u "⇒") = true /\
  eliminate_implication operators_only (u "(P(x) ⇔ Q(x))") = u "(P(x) ⇔ Q(x))" /\
  contains (eliminate_implication operators_only (u "(P(x) ⇔ Q(x))")) (u "⇔") = true.
Proof. vm_compute. repeat split. discriminate. Qed.

(** C7 fails on ¬∀x ∀y p: the first application gives ∃x ¬∀y p, the
    second ∃x ∃y ¬p. *)
Lemma move_negation_inward_not_idempotent :
  move_negation_inward operators_only (u "¬∀x ∀y p") = u "∃x ¬∀y p" /\
  move_negation_inward operators_only (move_negation_inward operators_only (u "¬∀x ∀y p"))
  = u "∃x ∃y ¬p" /\
  move_negation_inward operators_only (move_negation_inward operators_only (u "¬∀x ∀y p"))
  <> move_negation_inward operators_only (u "¬∀x ∀y p").
Proof. vm_compute. repeat split. discriminate. Qed.

Lemma move_negation_inward_twice_witness :
  negation_redex (move_negation_inward operators_only (u "¬(p ∧ q)")) = false /\
  move_negation_inward operators_only (move_negation_inward operators_only (u "¬(p ∧ q)"))
  = move_negation_inward operators_only (u "¬(p ∧ q)").
Proof.
  assert (H : negation_redex (move_negation_inward operators_only (u "¬(p ∧ q)")) = false)
    by reflexivity.
  split; [exact H | ].
  exact (move_negation_inward_twice operators_only (u "¬(p ∧ q)") H).
Defined.


(** C9.  The two orders of the stages give different CNF texts.  On
    ∃y P(y) the order of [resolution] gives the text (y) with a blank
    in front and the order of [print_propositions_in_cnf] gives it
    without; on (∀x P(x)) ∨ (∃x Q(x)), a proposition of the module's
    own list, the former loses the predicate sign Q and the latter the
    first parenthesis. *)
Theorem stage_orders_differ :
  resolution_cnf operators_only (u "∃y P(y)") = Ret (u " (y)") /\
  print_cnf operators_only (u "∃y P(y)") = Ret (u "(y)") /\
  resolution_cnf operators_only (u "∃y P(y)") <> print_cnf operators_only (u "∃y P(y)") /\
  resolution_cnf operators_only (u "(∀x P(x)) ∨ (∃x Q(x))")
  = Ret (u "(P(x)) ∨ ((x))") /\
  print_cnf operators_only (u "(∀x P(x)) ∨ (∃x Q(x))")
  = Ret (u "P(x)) ∨ (Q(x))").
Proof. vm_compute. repeat split. discriminate. Qed.

(** C10 fails where the name captured after a quantifier is a
    backslash: the call raises [re.error] and returns nothing. *)
Lemma standardize_variable_scope_raises :
  quantifier_variables operators_only (u "∀\ x") = [u "\"] /\
  standardize_variable_scope operators_only (u "∀\ x") = Raise ReError /\
  standardize_variable_scope operators_only (u "∀\ x") <> Ret (u "∀\ x").
Proof. vm_compute. repeat split. discriminate. Qed.

(** * The further properties on examples *)

Lemma clauses_from_formula_literal_witness :
  lacks is_connective (u " P(a)") = true /\
  clauses_from_formula (u " P(a)") = [[u " P(a)"]].
Proof.
  assert (H : lacks is_connective (u " P(a)") = true) by reflexivity.
  split; [exact H | ]. exact (@clauses_from_formula_literal (u " P(a)") H).
Defined.

Lemma resolve_agrees_with_rule_witness :
  (In (u "p") [u "p"; u "q"] /\ In (u "¬p") [u "¬p"; u "r"] /\
   complementary (u "p") (u "¬p") = true /\
   ~ In (u "p") [u "¬p"; u "r"] /\ ~ In (u "¬p") [u "p"; u "q"]) /\
  In (diff (union [u "p"; u "q"] [u "¬p"; u "r"]) [u "p"; u "¬p"])
     (resolve [u "p"; u "q"] [u "¬p"; u "r"]).
Proof.
  assert (Hi : In (u "p") [u "p"; u "q"]) by (simpl; auto).
  assert (Hj : In (u "¬p") [u "¬p"; u "r"]) by (simpl; auto).
  assert (Hc : complementary (u "p") (u "¬p") = true) by reflexivity.
  assert (Hij : ~ In (u "p") [u "¬p"; u "r"])
    by (intros [H | [H | []]]; discriminate H).
  assert (Hji : ~ In (u "¬p") [u "p"; u "q"])
    by (intros [H | [H | []]]; discriminate H).
  split; [repeat split; assumption | ].
  exact (proj1 (@resolve_agrees_with_rule _ _ _ _ Hi Hj Hc Hij Hji)).
Defined.

Lemma resolve_sound_witness :
  (tautology [u "p"; u "q"] = false /\ tautology [u "¬p"; u "r"] = false /\
   In [u "q"; u "r"] (resolve [u "p"; u "q"] [u "¬p"; u "r"]) /\
   clause_holds (fun l => str_eqb l (u "q")) [u "p"; u "q"] = true /\
   clause_holds (fun l => str_eqb l (u "q")) [u "¬p"; u "r"] = true) /\
  clause_holds (fun l => str_eqb l (u "q")) [u "q"; u "r"] = true.
Proof.
  assert (Ti : tautology [u "p"; u "q"] = false) by reflexivity.
  assert (Tj : tautology [u "¬p"; u "r"] = false) by reflexivity.
  assert (Hr : In [u "q"; u "r"] (resolve [u "p"; u "q"] [u "¬p"; u "r"]))
    by (vm_compute; auto).
  assert (Hvi : clause_holds (fun l => str_eqb l (u "q")) [u "p"; u "q"]
                = true) by reflexivity.
  assert (Hvj : clause_holds (fun l => str_eqb l (u "q")) [u "¬p"; u "r"]
                = true) by reflexivity.
  split; [repeat split; assumption | ].
  exact (@resolve_sound _ _ _ _ Ti Tj Hr Hvi Hvj).
Defined.

Lemma resolution_loop_sound_witness :
  (forallb (fun c => negb (tautology c))
           [[u " x"]; [u "p"]; [u " y"]; [u "¬p"]] = true /\
   resolution_loop 1 [[u " x"]; [u "p"]; [u " y"]; [u "¬p"]]
   = Some (Ret true)) /\
  ~ satisfiable [[u " x"]; [u "p"]; [u " y"]; [u "¬p"]].
Proof.
  assert (Ht : forallb (fun c => negb (tautology c))
                       [[u " x"]; [u "p"]; [u " y"]; [u "¬p"]] = true)
    by reflexivity.
  assert (Hr : resolution_loop 1 [[u " x"]; [u "p"]; [u " y"]; [u "¬p"]]
               = Some (Ret true)) by reflexivity.
  split; [split; assumption | ].
  exact (@resolution_loop_sound_without_tautologies 0 _ Ht Hr).
Defined.

Lemma stages_keep_clause_form_witness :
  clause_form (u "P(a)∨¬Q(b)") = true /\
  resolution_cnf operators_only (u "P(a)∨¬Q(b)") = Ret (u " P(a)∨¬Q(b)").
Proof.
  assert (H : clause_form (u "P(a)∨¬Q(b)") = true) by reflexivity.
  split; [exact H | ].
  exact (proj1 (@stages_keep_clause_form operators_only _ H)).
Defined.

Lemma resolution_misses_unit_contradiction_witness :
  atom_text (u "P(a)") = true /\
  resolution operators_only 1 [u "P(a)"; u "¬" ++ u "P(a)"]
  = Some (Ret false).
Proof.
  assert (H : atom_text (u "P(a)") = true) by reflexivity.
  split; [exact H | ].
  exact (@resolution_misses_unit_contradiction operators_only 0 _ H).
Defined.


(** What is written for (p ⇒ q) and ¬p. *)
Example print_propositions_in_cnf_output :
  print_propositions_in_cnf operators_only utf8_encodable
                            [u "(p ⇒ q)"; u "¬p"] []
  = (u "Propositions in CNF:" ++ [10] ++ u " (¬p ∨ q)" ++ [10]
     ++ u " ¬p" ++ [10], Returns).
Proof. vm_compute. reflexivity. Qed.

(** A line feed within a proposition is written as it is: the text of
    the one proposition takes two lines of the output. *)
Example print_propositions_in_cnf_line_feed :
  print_propositions_in_cnf operators_only utf8_encodable
                            [u "a" ++ [10] ++ u "b"] []
  = (u "Propositions in CNF:" ++ [10] ++ u " a" ++ [10] ++ u "b" ++ [10],
     Returns).
Proof. vm_compute. reflexivity. Qed.

(** A standard output in ASCII cannot take the not sign, and a stage
    that raises ends the call: what was printed before stays
    written. *)
Example print_propositions_in_cnf_raises :
  print_propositions_in_cnf operators_only ascii_encodable [u "p"; u "¬p"] []
  = (u "Propositions in CNF:" ++ [10] ++ u " p" ++ [10],
     RaisesUnicodeEncodeError) /\
  print_propositions_in_cnf operators_only utf8_encodable [u "p"; u "∀\ x"] []
  = (u "Propositions in CNF:" ++ [10] ++ u " p" ++ [10], Raises ReError).
Proof. vm_compute. split; reflexivity. Qed.

Lemma skolemization_five_constants_witness :
  (List.length (re_findall operators_only (rx "∃(.?)\s(.?)\b")
                           (u "∃y P(y)")) <= 5)%nat /\
  exists r, skolemization operators_only (u "∃y P(y)") = Ret r.
Proof.
  assert (H : (List.length (re_findall operators_only (rx "∃(.?)\s(.?)\b")
                                       (u "∃y P(y)")) <= 5)%nat)
    by (vm_compute; lia).
  split; [exact H | ].
  exact (@skolemization_five_constants operators_only _ H).
Defined.

Lemma eliminate_universal_quantifiers_strips_witness :
  (is_dot (ch "x") = true /\ is_space (ch " ") = true /\
   lacks (N.eqb (ch "∀")) (u "P(x) ∨ Q(F(x))") = true) /\
  eliminate_universal_quantifiers operators_only
    (ch "∀" :: ch "x" :: ch " " :: u "P(x) ∨ Q(F(x))")
  = u "P(x) ∨ Q(F(x))".
Proof.
  assert (Hx : is_dot (ch "x") = true) by reflexivity.
  assert (Hw : is_space (ch " ") = true) by reflexivity.
  assert (Hb : lacks (N.eqb (ch "∀")) (u "P(x) ∨ Q(F(x))") = true)
    by reflexivity.
  split; [repeat split; assumption | ].
  exact (@eliminate_universal_quantifiers_strips operators_only _ _ _ Hx Hw Hb).
Defined.

Lemma move_quantifiers_left_prenex_witness :
  (is_quantifier (ch "∃") = true /\ is_dot (ch "y") = true /\
   is_space (ch "y") = false /\ quantifier_free (u "P(y)") = true) /\
  move_quantifiers_left operators_only
    (ch "∃" :: ch "y" :: ch " " :: u "P(y)")
  = ch "∃" :: ch "y" :: ch " " :: u "P(y)".
Proof.
  assert (HQ : is_quantifier (ch "∃") = true) by reflexivity.
  assert (Hx : is_dot (ch "y") = true) by reflexivity.
  assert (Hs : is_space (ch "y") = false) by reflexivity.
  assert (Hb : quantifier_free (u "P(y)") = true) by reflexivity.
  split; [repeat split; assumption | ].
  exact (@move_quantifiers_left_prenex operators_only _ _ _ HQ Hx Hs Hb).
Defined.

Lemma universal_prefix_is_dropped_witness :
  (is_dot (ch "x") = true /\ is_space (ch "x") = false /\
   quantifier_free (u "P(x) ∨ Q(F(x))") = true) /\
  eliminate_universal_quantifiers operators_only
    (move_quantifiers_left operators_only
       (ch "∀" :: ch "x" :: ch " " :: u "P(x) ∨ Q(F(x))"))
  = u "P(x) ∨ Q(F(x))".
Proof.
  assert (Hx : is_dot (ch "x") = true) by reflexivity.
  assert (Hs : is_space (ch "x") = false) by reflexivity.
  assert (Hb : quantifier_free (u "P(x) ∨ Q(F(x))") = true) by reflexivity.
  split; [repeat split; assumption | ].
  exact (@universal_prefix_is_dropped operators_only _ _ Hx Hs Hb).
Defined.

Lemma convert_to_cnf_distributes_witness :
  (is_dot (ch "p") = true /\ is_dot (ch "q") = true /\
   forallb is_dot (u "r ∨ s") = true /\
   lacks (N.eqb (ch ")")) (u "r ∨ s") = true /\
   quantifier_free (ch "p" :: ch "q" :: u "r ∨ s") = true) /\
  convert_to_cnf operators_only
    (ch "p" :: u " ∨ (" ++ ch "q" :: u " ∧ " ++ u "r ∨ s" ++ u ")")
  = u "(" ++ ch "p" :: u " ∨ " ++ ch "q" :: u ") ∧ (" ++ ch "p" :: u " ∨ "
    ++ u "r ∨ s" ++ u ")".
Proof.
  assert (Hp : is_dot (ch "p") = true) by reflexivity.
  assert (Hq : is_dot (ch "q") = true) by reflexivity.
  assert (Hr : forallb is_dot (u "r ∨ s") = true) by reflexivity.
  assert (Hc : lacks (N.eqb (ch ")")) (u "r ∨ s") = true) by reflexivity.
  assert (Hf : quantifier_free (ch "p" :: ch "q" :: u "r ∨ s") = true)
    by reflexivity.
  split; [repeat split; assumption | ].
  exact (@convert_to_cnf_distributes operators_only _ _ _ Hp Hq Hr Hc Hf).
Defined.

Lemma move_negation_inward_de_morgan_witness :
  (short (u "p") /\ short (u "q") /\
   forallb is_dot (u "p" ++ u "q") = true /\
   lacks is_special (u "p" ++ u "q") = true) /\
  move_negation_inward operators_only
    (u "¬(" ++ u "p" ++ u " ∧ " ++ u "q" ++ u ")")
  = u "(¬" ++ u "p" ++ u " ∨ ¬" ++ u "q" ++ u ")".
Proof.
  assert (Hp : short (u "p")) by (vm_compute; lia).
  assert (Hq : short (u "q")) by (vm_compute; lia).
  assert (Hd : forallb is_dot (u "p" ++ u "q") = true) by reflexivity.
  assert (Hs : lacks is_special (u "p" ++ u "q") = true) by reflexivity.
  split; [repeat split; assumption | ].
  exact (proj1 (@move_negation_inward_de_morgan operators_only _ _ Hp Hq Hd Hs)).
Defined.

Lemma move_negation_inward_quantifier_duals_witness :
  (is_dot (ch "x") = true /\ is_special (ch "x") = false /\
   negation_redex (ch "¬" :: u "P(x)") = false) /\
  move_negation_inward operators_only (u "¬∀" ++ ch "x" :: u " " ++ u "P(x)")
  = u "∃" ++ ch "x" :: u " ¬" ++ u "P(x)".
Proof.
  assert (Hx : is_dot (ch "x") = true) by reflexivity.
  assert (Hs : is_special (ch "x") = false) by reflexivity.
  assert (Hb : negation_redex (ch "¬" :: u "P(x)") = false) by reflexivity.
  split; [repeat split; assumption | ].
  exact (proj1 (@move_negation_inward_quantifier_duals
                  operators_only _ _ Hx Hs Hb)).
Defined.

Lemma move_negation_inward_double_negation_witness :
  negation_redex (ch "¬" :: u "P(a)") = false /\
  move_negation_inward operators_only (u "¬¬" ++ u "P(a)") = u "P(a)".
Proof.
  assert (Hb : negation_redex (ch "¬" :: u "P(a)") = false) by reflexivity.
  split; [exact Hb | ].
  exact (@move_negation_inward_double_negation operators_only _ Hb).
Defined.

Lemma eliminate_implication_short_operands_witness :
  (short (u "p") /\ short (u "q") /\
   forallb is_dot (u "p" ++ u "q") = true /\
   lacks is_arrow (u "p" ++ u "q") = true) /\
  eliminate_implication operators_only (u "(" ++ u "p" ++ u " ⇒ " ++ u "q" ++ u ")")
  = u "(¬" ++ u "p" ++ u " ∨ " ++ u "q" ++ u ")".
Proof.
  assert (Hp : short (u "p")) by (vm_compute; lia).
  assert (Hq : short (u "q")) by (vm_compute; lia).
  assert (Hd : forallb is_dot (u "p" ++ u "q") = true) by reflexivity.
  assert (Ha : lacks is_arrow (u "p" ++ u "q") = true) by reflexivity.
  split; [repeat split; assumption | ].
  exact (proj1 (eliminate_implication_short_operands operators_only Hp Hq Hd Ha)).
Defined.

Lemma eliminate_implication_without_arrows_witness :
  lacks is_arrow (u "P(a) ∨ ¬Q(b)") = true /\
  eliminate_implication operators_only (u "P(a) ∨ ¬Q(b)")
  = u "P(a) ∨ ¬Q(b)".
Proof.
  assert (H : lacks is_arrow (u "P(a) ∨ ¬Q(b)") = true) by reflexivity.
  split; [exact H | ].
  exact (@eliminate_implication_without_arrows operators_only _ H).
Defined.

Lemma move_quantifiers_left_adds_blank_witness :
  quantifier_free (u "P(a)") = true /\
  move_quantifiers_left operators_only (u "P(a)") = u " P(a)".
Proof.
  assert (H : quantifier_free (u "P(a)") = true) by reflexivity.
  split; [exact H | ].
  exact (@move_quantifiers_left_adds_blank operators_only _ H).
Defined.
